(** * A shallow embedding of sapphirus (src/main.py): the Discord guild
    cloner.  The snapshot reader [APIScraper], the clone
    phases of [Clone] and the entry points of [CloneBot] are modelled; the
    remote API is an oracle from the call issued to its outcome. *)

From Stdlib Require Import Ascii String Floats.SpecFloat QArith Sorting.Sorted.
From stdpp Require Import base gmap strings list countable pretty.

Set Warnings "-register-all".
Open Scope Z_scope.

(** ** Python values *)

(** The values the program reads out of decoded JSON documents and
    passes to [safe_int].  Floats are IEEE-754 doubles, given by the
    Standard Library's [spec_float]. *)
Inductive pyval :=
| PNone
| PBool (b : bool)
| PInt (z : Z)
| PFloat (f : spec_float)
| PStr (s : string)
| PList (l : list pyval)
| PDict (d : list (string * pyval)).

(** The exceptions the modelled code raises or catches.  [Forbidden] is
    [discord.Forbidden], a subclass of [discord.HTTPException]; [HTTPError]
    is any other [discord.HTTPException] (NotFound, 400s, ...). *)
Inductive exc :=
| Forbidden
| HTTPError
| ValueError
| OverflowError
| TypeError
| RecursionError
| OtherError.

(** [except discord.HTTPException] *)
Definition is_http (e : exc) : bool :=
  match e with Forbidden | HTTPError => true | _ => false end.

(** Result of a Python computation: a value or a raised exception. *)
Inductive pyres (A : Type) :=
| Ret (a : A)
| Raise (e : exc).
Arguments Ret {A} a.
Arguments Raise {A} e.

(** ** [int()] on strings and floats *)

(** [str.isspace] on ASCII characters. *)
Definition is_py_space (c : ascii) : bool :=
  let n := nat_of_ascii c in
  ((9 <=? n) && (n <=? 13))%nat || ((28 <=? n) && (n <=? 32))%nat.

Fixpoint lstrip (l : list ascii) : list ascii :=
  match l with
  | c :: r => if is_py_space c then lstrip r else l
  | [] => []
  end.

(** [str.strip()] *)
Definition py_strip (s : string) : string :=
  string_of_list_ascii (rev (lstrip (rev (lstrip (list_ascii_of_string s))))).

Definition digit_val (c : ascii) : option Z :=
  let n := nat_of_ascii c in
  if ((48 <=? n) && (n <=? 57))%nat then Some (Z.of_nat n - 48) else None.

(** Digits with single underscores between them, read from the left with
    accumulator [acc]; [prev_us] is true right after an underscore. *)
Fixpoint digits_val (l : list ascii) (acc : Z) (prev_us : bool) : option Z :=
  match l with
  | [] => if prev_us then None else Some acc
  | c :: r =>
      if Ascii.eqb c "_"%char then
        if prev_us then None else digits_val r acc true
      else
        match digit_val c with
        | Some d => digits_val r (acc * 10 + d) false
        | None => None
        end
  end.

Definition unsigned_val (l : list ascii) : option Z :=
  match l with
  | c :: _ => match digit_val c with
              | Some _ => digits_val l 0 false
              | None => None
              end
  | [] => None
  end.

(** [int(s)] for an ASCII string [s]: surrounding whitespace, an optional
    sign, decimal digits with single underscores between them; anything
    else raises [ValueError].  Python also accepts the Unicode decimal
    digits of other scripts; strings holding them are outside this
    model. *)
Definition py_int_of_str (s : string) : pyres Z :=
  let l := list_ascii_of_string (py_strip s) in
  let r := match l with
           | c :: t => if Ascii.eqb c "-"%char then option_map Z.opp (unsigned_val t)
                       else if Ascii.eqb c "+"%char then unsigned_val t
                       else unsigned_val l
           | [] => None
           end in
  match r with Some z => Ret z | None => Raise ValueError end.

(** [int(f)] for a float: truncation toward zero; infinities raise
    [OverflowError] and NaN raises [ValueError]. *)
Definition py_int_of_float (f : spec_float) : pyres Z :=
  match f with
  | S754_zero _ => Ret 0
  | S754_infinity _ => Raise OverflowError
  | S754_nan => Raise ValueError
  | S754_finite s m e =>
      let a := if 0 <=? e then Z.pos m * 2 ^ e else Z.pos m / 2 ^ (- e) in
      Ret (if s then - a else a)
  end.

(** [Clone.safe_int] (main.py 151-163).  [bool] is a subclass of [int],
    so [isinstance(True, int)] holds and [True] is returned as [1]. *)
Definition safe_int (value : pyval) (default : Z) : pyres Z :=
  match value with
  | PNone => Ret default
  | PBool b => Ret (Z.b2z b)
  | PInt z => Ret z
  | PStr s => match py_int_of_str s with
              | Ret z => Ret z
              | Raise _ => Ret default
              end
  | PFloat f => py_int_of_float f
  | _ => Ret default
  end.

Example safe_int_ex1 : safe_int (PStr " -1_000 ") 7 = Ret (-1000).
Proof. reflexivity. Qed.
Example safe_int_ex2 : safe_int (PStr "12a") 7 = Ret 7.
Proof. reflexivity. Qed.
Example safe_int_ex3 : safe_int (PFloat (S754_finite true 5 (-1))) 0 = Ret (-2).
Proof. reflexivity. Qed.

(** ** [APIScraper] *)

(** A Python dict built by the code: [{"error": msg, "status": s}]. *)
Definition err_doc (msg : string) (status : option Z) : pyval :=
  PDict (("error", PStr msg) :: match status with
                                | Some s => [("status", PInt s)]
                                | None => []
                                end).

(** The value of a [Retry-After] header as [float()] sees it: a string
    that parses as a finite float [q], or one that does not parse. *)
Inductive retry_header :=
| HNum (q : Q)
| HBad.

(** What one HTTP request of the aiohttp session yields: a response with
    its status, its [Retry-After] header and its body ([None] when
    [resp.json()] raises), or a transport exception with its message. *)
Inductive response :=
| Resp (status : Z) (retry_after : option retry_header) (body : option pyval)
| ConnError (msg : string).

(** [float(resp.headers.get("Retry-After", 5))] *)
Definition retry_delay (h : option retry_header) : pyres Q :=
  match h with
  | None => Ret 5%Q
  | Some (HNum q) => Ret q
  | Some HBad => Raise ValueError
  end.

(** [str(e)] for the exceptions [get] can meet. *)
Definition exc_str (e : exc) : string :=
  match e with
  | ValueError => "could not convert string to float"
  | RecursionError => "maximum recursion depth exceeded"
  | _ => "error"
  end.

(** [APIScraper.get] (main.py 67-83).  The [i]-th request issued receives
    [rs i].  The result is the returned document, the list of [sleep]
    durations and the index of the next request.  A 429 is answered by
    [return await self.get(endpoint)], a nested call one frame deeper.
    [depth] is the number of nested calls the interpreter's recursion
    limit still allows: at [depth = 0] the nested call raises
    [RecursionError] before it issues its request, and the [except
    Exception] of [get] turns it into [{"error": str(e)}], which every
    enclosing call returns unchanged. *)
Fixpoint get_depth (depth : nat) (rs : nat -> response) (i : nat)
  : pyval * list Q * nat :=
  match depth with
  | O => (err_doc (exc_str RecursionError) None, [], i)
  | S depth' =>
      match rs i with
      | ConnError msg => (err_doc msg None, [], S i)
      | Resp status hdr body =>
          if status =? 200 then
            match body with
            | Some doc => (doc, [], S i)
            | None => (err_doc "malformed JSON" None, [], S i)
            end
          else if status =? 429 then
            match retry_delay hdr with
            | Raise e => (err_doc (exc_str e) None, [], S i)
            | Ret d =>
                let '(doc, sl, j) := get_depth depth' rs (S i) in (doc, d :: sl, j)
            end
          else if status =? 403 then (err_doc "forbidden" (Some 403), [], S i)
          else if status =? 401 then (err_doc "unauthorized" (Some 401), [], S i)
          else (err_doc ("http " ++ pretty status) (Some status), [], S i)
      end
  end.

Definition resp_429 (h : option retry_header) : response := Resp 429 h None.

(** A server that answers every request with 429 and no header. *)
Definition sustained_429 : nat -> response := fun _ => resp_429 None.

(** The document [get] returns for a response that is not a 429. *)
Definition final_doc (r : response) : pyval :=
  match r with
  | ConnError msg => err_doc msg None
  | Resp status _ body =>
      if status =? 200 then
        match body with Some doc => doc | None => err_doc "malformed JSON" None end
      else if status =? 403 then err_doc "forbidden" (Some 403)
      else if status =? 401 then err_doc "unauthorized" (Some 401)
      else err_doc ("http " ++ pretty status) (Some status)
  end.

Definition is_429 (r : response) : bool :=
  match r with Resp s _ _ => s =? 429 | ConnError _ => false end.

Definition header_of (r : response) : option retry_header :=
  match r with Resp _ h _ => h | ConnError _ => None end.

(** The sleep a parsing [Retry-After] header asks for. *)
Definition delay_of (h : option retry_header) : Q :=
  match h with Some (HNum q) => q | _ => 5%Q end.

Definition header_parses (h : option retry_header) : bool :=
  match h with Some HBad => false | _ => true end.

Example get_ex1 :
  get_depth 5 (fun i => match i with
                        | O => resp_429 (Some (HNum 2))
                        | _ => Resp 200 None (Some (PList []))
                        end) 0
  = (PList [], [2%Q], 2%nat).
Proof. reflexivity. Qed.

(** The snapshot document [scrape_server] returns (the timestamp is not
    modelled). *)
Record snapshot := {
  s_id : Z;
  s_guild : pyval;
  s_channels : list pyval;
  s_roles : list pyval;
  s_emojis : list pyval
}.

(** [x if isinstance(x, list) else []] *)
Definition list_or_empty (v : pyval) : list pyval :=
  match v with PList l => l | _ => [] end.

Definition guild_endpoint (gid : Z) : string := "/guilds/" ++ pretty gid ++ "?with_counts=true".
Definition channels_endpoint (gid : Z) : string := "/guilds/" ++ pretty gid ++ "/channels".
Definition roles_endpoint (gid : Z) : string := "/guilds/" ++ pretty gid ++ "/roles".
Definition emojis_endpoint (gid : Z) : string := "/guilds/" ++ pretty gid ++ "/emojis".

(** [APIScraper.scrape_server] (main.py 85-107), over the documents the
    four [get] calls return ([get] never raises: its body is wrapped in
    [except Exception]).  The first component lists the endpoints read, in
    order. *)
Definition scrape_server (get : string -> pyval) (gid : Z) : list string * snapshot :=
  let guild := get (guild_endpoint gid) in
  let channels := get (channels_endpoint gid) in
  let roles := get (roles_endpoint gid) in
  let emojis := get (emojis_endpoint gid) in
  let guild := match guild with PNone => PDict [("error", PStr "no response")] | g => g end in
  let channels := match channels with PNone => PList [] | c => c end in
  let roles := match roles with PNone => PList [] | r => r end in
  let emojis := match emojis with PNone => PList [] | e => e end in
  ([guild_endpoint gid; channels_endpoint gid; roles_endpoint gid; emojis_endpoint gid],
   {| s_id := gid; s_guild := guild;
      s_channels := list_or_empty channels;
      s_roles := list_or_empty roles;
      s_emojis := list_or_empty emojis |}).

(** A [get] result is an error document when it is a dict with an
    ["error"] key. *)
Definition is_err_doc (v : pyval) : bool :=
  match v with
  | PDict kv => existsb (fun kv => String.eqb kv.1 "error") kv
  | _ => false
  end.

(** ** Source records, target objects and the remote API *)

(** Python truthiness. *)
Definition py_truthy (v : pyval) : bool :=
  match v with
  | PNone => false
  | PBool b => b
  | PInt z => negb (z =? 0)
  | PFloat (S754_zero _) => false
  | PFloat _ => true
  | PStr s => negb (String.eqb s "")
  | PList l => negb (bool_decide (l = []))
  | PDict d => negb (bool_decide (d = []))
  end.

(** [f == z] for a float [f] and an int [z]. *)
Definition float_eq_Z (f : spec_float) (z : Z) : bool :=
  match f with
  | S754_zero _ => z =? 0
  | S754_finite s m e =>
      if 0 <=? e then (if s then - (Z.pos m * 2 ^ e) else Z.pos m * 2 ^ e) =? z
      else let d := 2 ^ (- e) in
           (Z.pos m mod d =? 0) && ((if s then - (Z.pos m / d) else Z.pos m / d) =? z)
  | _ => false
  end.

(** [v == z] for an int literal [z]. *)
Definition py_eq_int (v : pyval) (z : Z) : bool :=
  match v with
  | PInt n => n =? z
  | PBool b => Z.b2z b =? z
  | PFloat f => float_eq_Z f z
  | _ => false
  end.

(** The ids the program uses as keys of [role_map], [cat_map] and
    [chan_map]: the raw JSON value of an ["id"] or ["parent_id"] field
    (null, an int or a string; [True] hashes and compares as [1]). *)
Inductive key :=
| KNone
| KInt (z : Z)
| KStr (s : string).

Global Instance key_eq_dec : EqDecision key.
Proof. solve_decision. Defined.

Global Instance key_countable : Countable key.
Proof.
  refine (inj_countable'
            (λ k, match k with
                  | KNone => inl ()
                  | KInt z => inr (inl z)
                  | KStr s => inr (inr s)
                  end)
            (λ x, match x with
                  | inl _ => KNone
                  | inr (inl z) => KInt z
                  | inr (inr s) => KStr s
                  end) _).
  by intros [].
Defined.

Definition key_truthy (k : key) : bool :=
  match k with
  | KNone => false
  | KInt z => negb (z =? 0)
  | KStr s => negb (String.eqb s "")
  end.

(** A discord.py object of the target guild (role, channel, emoji): its
    snowflake and its name. *)
Record handle := mkhandle { hid : Z; hname : string }.

Global Instance handle_eq_dec : EqDecision handle.
Proof. solve_decision. Defined.

(** One entry of a channel's ["permission_overwrites"]: the values of
    [ow.get("type", 0)], [ow.get("id")], [ow.get("allow")], [ow.get("deny")]. *)
Record overwrite := mkoverwrite {
  ow_type : pyval; ow_id : pyval; ow_allow : pyval; ow_deny : pyval
}.

(** One source role, as [roles_create] reads it ([r_position] is
    [role_data.get("position", 0)]). *)
Record role_rec := mkrole {
  r_id : key; r_name : string; r_permissions : pyval; r_color : pyval;
  r_hoist : pyval; r_mentionable : pyval; r_position : pyval
}.

(** One source channel ([c_type] is [c.get("type")], [c_parent] is
    [c.get("parent_id")]). *)
Record chan_rec := mkchan {
  c_id : key; c_type : pyval; c_name : string; c_parent : key;
  c_position : pyval; c_overwrites : list overwrite; c_topic : pyval;
  c_rate_limit : pyval; c_nsfw : pyval; c_bitrate : pyval; c_user_limit : pyval
}.

Record emoji_rec := mkemoji { e_id : key; e_name : string; e_animated : pyval }.

Record guild_rec := mkguild { g_id : pyval; g_name : string; g_icon : pyval }.

(** [CloneBot.scraped_data], decoded; [src_guild] is [None] when the
    ["guild"] entry is not a dict with a ["name"]. *)
Record source := mksource {
  src_guild : option guild_rec; src_roles : list role_rec;
  src_channels : list chan_rec; src_emojis : list emoji_rec
}.

(** A guild the bot is in, with the bot member's two permissions. *)
Record target := mktarget {
  t_id : Z; t_name : string; t_default_role : handle; t_roles : list handle;
  t_channels : list handle; t_emojis : list handle;
  t_manage_channels : bool; t_manage_roles : bool
}.

(** The overwrites dict passed to discord.py: target role to the
    (allow, deny) pair, in insertion order. *)
Definition overwrites_to := list (handle * (Z * Z)).

(** [d[k] = v] on a dict kept in insertion order. *)
Fixpoint ow_set (k : handle) (v : Z * Z) (d : overwrites_to) : overwrites_to :=
  match d with
  | [] => [(k, v)]
  | (k', v') :: d' => if decide (k = k') then (k, v) :: d' else (k', v') :: ow_set k v d'
  end.

(** The leaf creation calls of [channels_create], with their keyword
    arguments beyond name, category, overwrites and position. *)
Inductive leaf_call :=
| TextCall (topic : pyval) (slowmode : Z) (nsfw : bool)
| VoiceCall (bitrate user_limit : Z)
| NewsCall (topic : pyval)
| StageCall
| ForumCall (topic : pyval)
| PlainCall.

(** The mutating discord.py calls the program issues. *)
Inductive call :=
| EditGuildName (name : string)
| EditGuildIcon (url : string)
| DeleteEmoji (h : handle)
| DeleteChannel (h : handle)
| DeleteRole (h : handle)
| EditRolePerms (h : handle) (perms : Z)
| CreateRole (name : string) (perms color : Z) (hoist mentionable : pyval)
| EditRolePosition (h : handle) (pos : Z)
| CreateCategory (name : string) (ow : overwrites_to)
| EditCategoryPosition (h : handle) (pos : Z)
| CreateLeaf (lc : leaf_call) (name : string) (category : option handle)
             (ow : overwrites_to) (pos : Z)
| EditNewsType (h : handle)
| CreateEmoji (name : string) (url : string).

(** An issued call, tagged with the id of the source item it serves
    ([KNone] for calls on target objects) and its outcome. *)
Definition event : Type := key * call * pyres handle.

(** Console lines of [log_add], [log_delete], [log_error] and the plain
    [console.print] warnings. *)
Inductive line :=
| LAdd (m : string)
| LDelete (m : string)
| LError (m : string)
| LNote (m : string).

(** The mutable state: [CloneBot]'s three remapper dicts, the [Clone]
    progress counters, the console, the issued calls (latest first) and
    the unread lines of standard input. *)
Record st := mkst {
  role_map : gmap key handle;
  cat_map : gmap key handle;
  chan_map : gmap key handle;
  cur_op : string;
  completed : nat;
  total : nat;
  errors : nat;
  out : list line;
  trace : list event;
  inputs : list string
}.

(** ** The state and exception monad *)

Definition M (A : Type) : Type := st → pyres A * st.

Global Instance M_ret : MRet M := λ A a s, (Ret a, s).
Global Instance M_bind : MBind M := λ A B k m s,
  match m s with
  | (Ret a, s') => k a s'
  | (Raise e, s') => (Raise e, s')
  end.

Definition throw {A} (e : exc) : M A := λ s, (Raise e, s).

Definition of_res {A} (r : pyres A) : M A := λ s, (r, s).

Definition modify (f : st → st) : M unit := λ s, (Ret tt, f s).

Definition gets {A} (f : st → A) : M A := λ s, (Ret (f s), s).

(** [try: m except e if handled e: h e], other exceptions propagate. *)
Definition try_except {A} (m : M A) (handled : exc → bool) (h : exc → M A) : M A :=
  λ s, match m s with
       | (Raise e, s') => if handled e then h e s' else (Raise e, s')
       | r => r
       end.

Definition catch_all (_ : exc) : bool := true.

(** Field updates of [st]. *)
Definition set_role_map (m : gmap key handle) (s : st) : st :=
  mkst m (cat_map s) (chan_map s) (cur_op s) (completed s) (total s) (errors s)
       (out s) (trace s) (inputs s).
Definition set_cat_map (m : gmap key handle) (s : st) : st :=
  mkst (role_map s) m (chan_map s) (cur_op s) (completed s) (total s) (errors s)
       (out s) (trace s) (inputs s).
Definition set_chan_map (m : gmap key handle) (s : st) : st :=
  mkst (role_map s) (cat_map s) m (cur_op s) (completed s) (total s) (errors s)
       (out s) (trace s) (inputs s).
Definition set_stats (op : string) (c t e : nat) (s : st) : st :=
  mkst (role_map s) (cat_map s) (chan_map s) op c t e (out s) (trace s) (inputs s).
Definition add_out (l : line) (s : st) : st :=
  mkst (role_map s) (cat_map s) (chan_map s) (cur_op s) (completed s) (total s)
       (errors s) (l :: out s) (trace s) (inputs s).
Definition add_event (ev : event) (s : st) : st :=
  mkst (role_map s) (cat_map s) (chan_map s) (cur_op s) (completed s) (total s)
       (errors s) (out s) (ev :: trace s) (inputs s).
Definition set_inputs (l : list string) (s : st) : st :=
  mkst (role_map s) (cat_map s) (chan_map s) (cur_op s) (completed s) (total s)
       (errors s) (out s) (trace s) l.

(** ** Helpers of [Clone] *)

(** [x.lower() == "true"] for an ASCII string. *)
Definition ascii_lower (c : ascii) : ascii :=
  let n := nat_of_ascii c in
  if ((65 <=? n) && (n <=? 90))%nat then ascii_of_nat (n + 32) else c.

Definition str_lower (s : string) : string :=
  string_of_list_ascii (map ascii_lower (list_ascii_of_string s)).

(** [if isinstance(v, str): v = v.lower() == "true"] *)
Definition boolish (v : pyval) : pyval :=
  match v with PStr s => PBool (String.eqb (str_lower s) "true") | _ => v end.

(** [f"{v}"] for the scalar values the program formats. *)
Definition py_str (v : pyval) : string :=
  match v with
  | PNone => "None"
  | PBool b => if b then "True" else "False"
  | PInt z => pretty z
  | PStr s => s
  | _ => "<value>"
  end.

Definition key_str (k : key) : string :=
  match k with KNone => "None" | KInt z => pretty z | KStr s => s end.

(** The sort keys [safe_int(f(x), 0)], computed left to right; the first
    raising one aborts [sorted]. *)
Fixpoint keyed {A} (f : A → pyval) (l : list A) : pyres (list (Z * A)) :=
  match l with
  | [] => Ret []
  | x :: r =>
      match safe_int (f x) 0 with
      | Raise e => Raise e
      | Ret k => match keyed f r with
                 | Raise e => Raise e
                 | Ret kr => Ret ((k, x) :: kr)
                 end
      end
  end.

Fixpoint insert_keyed {A} (p : Z * A) (l : list (Z * A)) : list (Z * A) :=
  match l with
  | [] => [p]
  | q :: r => if p.1 <? q.1 then p :: l else q :: insert_keyed p r
  end.

(** [sorted(l, key=lambda x: safe_int(f(x), 0))]: a stable sort. *)
Definition sort_by_position {A} (f : A → pyval) (l : list A) : pyres (list A) :=
  match keyed f l with
  | Raise e => Raise e
  | Ret kl => Ret (map snd (fold_left (λ acc p, insert_keyed p acc) kl []))
  end.

(** The target role an overwrite's id resolves to: [role_map.get(sid)],
    or the target's default role when that is absent and [sid] is the
    source guild id [CloneBot.source_id]. *)
Definition resolve_group (rm : gmap key handle) (src_id : option Z)
    (dflt : handle) (sid : Z) : option handle :=
  match rm !! KInt sid with
  | Some h => Some h
  | None => if bool_decide (Some sid = src_id) then Some dflt else None
  end.

(** [Clone.parse_permission_overwrites] (main.py 165-185), with the
    overwrites dict built so far in [acc]. *)
Fixpoint parse_ows (rm : gmap key handle) (src_id : option Z) (dflt : handle)
    (ows : list overwrite) (acc : overwrites_to) : pyres overwrites_to :=
  match ows with
  | [] => Ret acc
  | ow :: r =>
      match safe_int (ow_id ow) 0 with
      | Raise e => Raise e
      | Ret sid =>
          match safe_int (ow_allow ow) 0 with
          | Raise e => Raise e
          | Ret a =>
              match safe_int (ow_deny ow) 0 with
              | Raise e => Raise e
              | Ret d =>
                  let acc' :=
                    if py_eq_int (ow_type ow) 0 then
                      match resolve_group rm src_id dflt sid with
                      | Some h => ow_set h (a, d) acc
                      | None => acc
                      end
                    else acc in
                  parse_ows rm src_id dflt r acc'
              end
          end
      end
  end.

Definition parse_permission_overwrites (rm : gmap key handle) (src_id : option Z)
    (dflt : handle) (ows : list overwrite) : pyres overwrites_to :=
  parse_ows rm src_id dflt ows [].

(** [CloneBot]'s fields that the clone entry points read but do not
    change: the bot client's guilds ([None] when no bot is connected),
    [target_id], [source_id] and [scraped_data]. *)
Record cfg := mkcfg {
  client : option (list target);
  target_id : option Z;
  source_id : option Z;
  scraped_data : option source
}.

(** ** The clone phases *)

Section Clone.

(** The remote API: the outcome of a mutating call, given the calls
    issued before it (latest first). *)
Variable api : list event → call → pyres handle.
(** A CDN download with aiohttp: the HTTP status, or an exception. *)
Variable fetch : string → pyres Z.
(** The [CloneBot] the [Clone] belongs to. *)
Variable bot : cfg.

(** Issue a mutating call for the source item [tag]. *)
Definition issue (tag : key) (c : call) : M handle :=
  λ s, let r := api (trace s) c in (r, add_event (tag, c, r) s).

Definition log_add (m : string) : M unit := modify (add_out (LAdd m)).
Definition log_delete (m : string) : M unit := modify (add_out (LDelete m)).
(** [Clone.log_error]: prints and counts. *)
Definition log_error (m : string) : M unit :=
  modify (λ s, add_out (LError m)
                 (set_stats (cur_op s) (completed s) (total s) (S (errors s)) s)).

Definition reset_stats : M unit := modify (set_stats "idle" 0 0 0).
Definition set_op (op : string) : M unit :=
  modify (λ s, set_stats op (completed s) (total s) (errors s) s).
Definition set_total (n : nat) : M unit :=
  modify (λ s, set_stats (cur_op s) 0 n (errors s) s).
Definition incr_completed : M unit :=
  modify (λ s, set_stats (cur_op s) (S (completed s)) (total s) (errors s) s).

(** [except discord.Forbidden] / [except discord.HTTPException] /
    [except Exception] messages. *)
Definition err_msg (name : string) (e : exc) : string :=
  match e with
  | Forbidden => "forbidden: " ++ name
  | HTTPError => "http error: " ++ name
  | _ => "error: " ++ exc_str e
  end.

Fixpoint for_each {A} (l : list A) (body : A → M unit) : M unit :=
  match l with
  | [] => mret tt
  | x :: r => body x ;; for_each r body
  end.

(** One iteration of a deletion loop (main.py 195-204, 300-309, 474-483). *)
Definition delete_item (mk : handle → call) (what : string) (h : handle) : M unit :=
  try_except (issue KNone (mk h) ;; log_delete ("deleted " ++ what ++ ": " ++ hname h))
             is_http (λ e, log_error (err_msg (hname h) e)) ;;
  incr_completed.

(** [Clone.roles_delete] (main.py 187-206). *)
Definition roles_delete (t : target) : M unit :=
  set_op "Deleting Roles" ;;
  let roles := filter (λ r, negb (String.eqb (hname r) "@everyone")) (t_roles t) in
  set_total (length roles) ;;
  for_each roles (delete_item DeleteRole "role").

(** [Clone.channels_delete] (main.py 292-311). *)
Definition channels_delete (t : target) : M unit :=
  set_op "Deleting Channels" ;;
  set_total (length (t_channels t)) ;;
  for_each (t_channels t) (delete_item DeleteChannel "channel").

(** [Clone.emojis_delete] (main.py 463-485). *)
Definition emojis_delete (t : target) : M unit :=
  set_op "Deleting Emojis" ;;
  set_total (length (t_emojis t)) ;;
  if bool_decide (length (t_emojis t) = 0%nat) then mret tt
  else for_each (t_emojis t) (delete_item DeleteEmoji "emoji").

(** The body of the [@everyone] branch of [roles_create] (main.py 222-230). *)
Definition everyone_edit (t : target) (rd : role_rec) : M unit :=
  perms ← of_res (safe_int (r_permissions rd) 0) ;
  _ ← issue (r_id rd) (EditRolePerms (t_default_role t) perms) ;
  modify (λ s, set_role_map (<[r_id rd := t_default_role t]> (role_map s)) s) ;;
  log_add "updated @everyone permissions".

(** The [try] body for any other role (main.py 238-261). *)
Definition role_create (rd : role_rec) : M unit :=
  perms ← of_res (safe_int (r_permissions rd) 0) ;
  color ← of_res (safe_int (r_color rd) 0) ;
  h ← issue (r_id rd) (CreateRole (r_name rd) perms color (boolish (r_hoist rd))
                                   (boolish (r_mentionable rd))) ;
  modify (λ s, set_role_map (<[r_id rd := h]> (role_map s)) s) ;;
  log_add ("created role: " ++ r_name rd).

Definition role_item (t : target) (rd : role_rec) : M unit :=
  (if String.eqb (r_name rd) "@everyone" then
     try_except (everyone_edit t rd) catch_all
                (λ e, log_error ("everyone error: " ++ exc_str e))
   else
     try_except (role_create rd) catch_all (λ e, log_error (err_msg (r_name rd) e))) ;;
  incr_completed.

(** One iteration of [Clone.reorder_roles] (main.py 279-290). *)
Definition reorder_item (rd : role_rec) : M unit :=
  rm ← gets role_map ;
  match rm !! r_id rd with
  | None => mret tt
  | Some h =>
      if String.eqb (hname h) "@everyone" then mret tt
      else try_except (pos ← of_res (safe_int (r_position rd) 0) ;
                       _ ← issue (r_id rd) (EditRolePosition h pos) ; mret tt)
                      catch_all (λ _, mret tt)
  end.

(** [Clone.reorder_roles] (main.py 276-290). *)
Definition reorder_roles (rds : list role_rec) : M unit :=
  set_op "Reordering Roles" ;;
  for_each rds reorder_item.

(** [Clone.roles_create] (main.py 208-274). *)
Definition roles_create (t : target) (rds : list role_rec) : M unit :=
  set_op "Creating Roles" ;;
  set_total (length rds) ;;
  sorted ← of_res (sort_by_position r_position rds) ;
  for_each sorted (role_item t) ;;
  reorder_roles sorted.

(** The [try] body of [categories_create] (main.py 331-341). *)
Definition category_create (t : target) (cd : chan_rec) : M unit :=
  rm ← gets role_map ;
  ow ← of_res (parse_permission_overwrites rm (source_id bot) (t_default_role t)
                                           (c_overwrites cd)) ;
  h ← issue (c_id cd) (CreateCategory (c_name cd) ow) ;
  pos ← of_res (safe_int (c_position cd) 0) ;
  _ ← issue (c_id cd) (EditCategoryPosition h pos) ;
  modify (λ s, set_cat_map (<[c_id cd := h]> (cat_map s)) s) ;;
  log_add ("created category: " ++ c_name cd).

Definition category_item (t : target) (cd : chan_rec) : M unit :=
  try_except (category_create t cd) is_http (λ e, log_error (err_msg (c_name cd) e)) ;;
  incr_completed.

Definition is_category (c : chan_rec) : bool := py_eq_int (c_type c) 4.

(** [Clone.categories_create] (main.py 313-350). *)
Definition categories_create (t : target) (chans : list chan_rec) : M unit :=
  set_op "Creating Categories" ;;
  sorted ← of_res (sort_by_position c_position (filter is_category chans)) ;
  set_total (length sorted) ;;
  if bool_decide (length sorted = 0%nat) then mret tt
  else for_each sorted (category_item t).

(** [category = self.bot.cat_map.get(parent_id) if parent_id else None] *)
Definition resolve_parent (cm : gmap key handle) (parent : key) : option handle :=
  if key_truthy parent then cm !! parent else None.

(** The leaf creation call chosen by [chan_type] (main.py 381-450),
    evaluating its keyword arguments first. *)
Definition leaf_call_of (ct : Z) (cd : chan_rec) : M leaf_call :=
  if ct =? 0 then
    slow ← of_res (safe_int (c_rate_limit cd) 0) ;
    mret (TextCall (c_topic cd) slow (match c_nsfw cd with PBool b => b | _ => false end))
  else if ct =? 2 then
    br ← of_res (safe_int (c_bitrate cd) 64000) ;
    ul ← of_res (safe_int (c_user_limit cd) 0) ;
    mret (VoiceCall br ul)
  else if ct =? 5 then mret (NewsCall (c_topic cd))
  else if ct =? 13 then mret StageCall
  else if ct =? 15 then mret (ForumCall (c_topic cd))
  else mret PlainCall.

Definition leaf_word (lc : leaf_call) : string :=
  match lc with
  | TextCall _ _ _ => "text" | VoiceCall _ _ => "voice" | NewsCall _ => "news"
  | StageCall => "stage" | ForumCall _ => "forum" | PlainCall => "channel"
  end.

(** The [try] body of [channels_create] (main.py 379-450). *)
Definition leaf_create (cd : chan_rec) (ct : Z) (category : option handle)
    (ow : overwrites_to) : M unit :=
  pos ← of_res (safe_int (c_position cd) 0) ;
  lc ← leaf_call_of ct cd ;
  h ← issue (c_id cd) (CreateLeaf lc (c_name cd) category ow pos) ;
  (match lc with
   | NewsCall _ => try_except (_ ← issue (c_id cd) (EditNewsType h) ; mret tt)
                              catch_all (λ _, mret tt)
   | _ => mret tt
   end) ;;
  modify (λ s, set_chan_map (<[c_id cd := h]> (chan_map s)) s) ;;
  log_add ("created " ++ leaf_word lc ++ ": " ++ c_name cd).

(** One iteration of [channels_create] (main.py 365-459): the type, the
    parent and the overwrites are computed before the [try]. *)
Definition leaf_item (t : target) (cd : chan_rec) : M unit :=
  ct ← of_res (safe_int (c_type cd) 0) ;
  cm ← gets cat_map ;
  let category := resolve_parent cm (c_parent cd) in
  rm ← gets role_map ;
  ow ← of_res (parse_permission_overwrites rm (source_id bot) (t_default_role t)
                                           (c_overwrites cd)) ;
  try_except (leaf_create cd ct category ow) catch_all
             (λ e, log_error (err_msg (c_name cd) e)) ;;
  incr_completed.

(** [Clone.channels_create] (main.py 352-461). *)
Definition channels_create (t : target) (chans : list chan_rec) : M unit :=
  set_op "Creating Channels" ;;
  sorted ← of_res (sort_by_position c_position (filter (λ c, negb (is_category c)) chans)) ;
  set_total (length sorted) ;;
  if bool_decide (length sorted = 0%nat) then mret tt
  else for_each sorted (leaf_item t).

Definition emoji_url (ed : emoji_rec) : string :=
  "https://cdn.discordapp.com/emojis/" ++ key_str (e_id ed) ++ "."
  ++ (if py_truthy (boolish (e_animated ed)) then "gif" else "png").

(** The [try] body of [emojis_create] (main.py 514-524). *)
Definition emoji_create (ed : emoji_rec) : M unit :=
  status ← of_res (fetch (emoji_url ed)) ;
  if status =? 200 then
    _ ← issue (e_id ed) (CreateEmoji (e_name ed) (emoji_url ed)) ;
    log_add ("created emoji: " ++ e_name ed)
  else log_error ("download failed: " ++ e_name ed).

Definition emoji_item (ed : emoji_rec) : M unit :=
  if negb (key_truthy (e_id ed)) then
    log_error ("no emoji id for: " ++ e_name ed) ;; incr_completed
  else
    try_except (emoji_create ed) catch_all (λ e, log_error (err_msg (e_name ed) e)) ;;
    incr_completed.

(** [Clone.emojis_create] (main.py 487-535). *)
Definition emojis_create (eds : list emoji_rec) : M unit :=
  set_op "Creating Emojis" ;;
  set_total (length eds) ;;
  if bool_decide (length eds = 0%nat) then modify (add_out (LNote "No emojis to create"))
  else for_each eds emoji_item.

Definition icon_url (gd : guild_rec) : string :=
  "https://cdn.discordapp.com/icons/" ++ py_str (g_id gd) ++ "/" ++ py_str (g_icon gd) ++ ".png".

Definition is_forbidden (e : exc) : bool := match e with Forbidden => true | _ => false end.

(** [Clone.guild_edit] (main.py 537-559): only [discord.Forbidden] is
    caught around the rename; the icon step swallows every exception. *)
Definition guild_edit (t : target) (gd : guild_rec) : M unit :=
  set_op "Updating Guild" ;;
  try_except
    (_ ← issue KNone (EditGuildName (g_name gd)) ;
     log_add ("renamed guild to: " ++ g_name gd) ;;
     if py_truthy (g_icon gd) then
       try_except
         (status ← of_res (fetch (icon_url gd)) ;
          if status =? 200 then
            _ ← issue KNone (EditGuildIcon (icon_url gd)) ; log_add "changed guild icon"
          else mret tt)
         catch_all (λ e, modify (add_out (LNote ("icon failed: " ++ exc_str e))))
     else mret tt)
    is_forbidden (λ _, log_error "forbidden to edit guild").

(** ** The entry points of [CloneBot] *)

Definition get_guild (gs : list target) (id : Z) : option target :=
  find (λ g, t_id g =? id) gs.

(** [CloneBot.check_target] (main.py 1058-1076); its log lines are not
    modelled. *)
Definition check_target (c : cfg) : option target :=
  match client c with
  | None => None
  | Some gs =>
      match target_id c with
      | None => None
      | Some tid =>
          if tid =? 0 then None
          else match get_guild gs tid with
               | None => None
               | Some t => if t_manage_channels t && t_manage_roles t then Some t else None
               end
      end
  end.

(** [CloneBot.get_input]: [input().strip()]; [input()] raises EOFError
    at the end of input. *)
Definition get_input : M string :=
  λ s, match inputs s with
       | [] => (Raise OtherError, s)
       | l :: r => (Ret (py_strip l), set_inputs r s)
       end.

(** A bare [input()]. *)
Definition raw_input : M string :=
  λ s, match inputs s with
       | [] => (Raise OtherError, s)
       | l :: r => (Ret l, set_inputs r s)
       end.

Definition reset_maps (s : st) : st :=
  set_chan_map ∅ (set_cat_map ∅ (set_role_map ∅ s)).

(** The five phases of [do_full_clone] once confirmed (main.py 1106-1145). *)
Definition full_clone_phases (t : target) (src : source) (g : guild_rec) : M unit :=
  modify reset_maps ;;
  reset_stats ;; guild_edit t g ;;
  reset_stats ;; emojis_delete t ;;
  reset_stats ;; channels_delete t ;;
  reset_stats ;; roles_delete t ;;
  reset_stats ;; roles_create t (src_roles src) ;;
  reset_stats ;; categories_create t (src_channels src) ;;
  reset_stats ;; channels_create t (src_channels src) ;;
  reset_stats ;; emojis_create (src_emojis src) ;;
  _ ← raw_input ; mret tt.

(** [CloneBot.do_full_clone] (main.py 1078-1145). *)
Definition do_full_clone : M unit :=
  match scraped_data bot with
  | None => mret tt
  | Some src =>
      match check_target bot with
      | None => mret tt
      | Some t =>
          match src_guild src with
          | None => mret tt
          | Some g =>
              answer ← get_input ;
              if String.eqb answer "clone" then full_clone_phases t src g else mret tt
          end
      end
  end.

(** [CloneBot.do_delete_roles] (main.py 1231-1248). *)
Definition do_delete_roles : M unit :=
  match check_target bot with
  | None => mret tt
  | Some t =>
      answer ← get_input ;
      if String.eqb answer "delete" then
        reset_stats ;; roles_delete t ;; _ ← raw_input ; mret tt
      else mret tt
  end.

(** [CloneBot.do_delete_channels] (main.py 1250-1267). *)
Definition do_delete_channels : M unit :=
  match check_target bot with
  | None => mret tt
  | Some t =>
      answer ← get_input ;
      if String.eqb answer "delete" then
        reset_stats ;; channels_delete t ;; _ ← raw_input ; mret tt
      else mret tt
  end.

(** [CloneBot.do_clone_roles] (main.py 1147-1172): the remapper dicts are
    not reset, and the deletion runs only on the answer ["y"]. *)
Definition do_clone_roles : M unit :=
  match scraped_data bot with
  | None => mret tt
  | Some src =>
      match check_target bot with
      | None => mret tt
      | Some t =>
          answer ← get_input ;
          (if String.eqb answer "y" then reset_stats ;; roles_delete t else mret tt) ;;
          reset_stats ;; roles_create t (src_roles src) ;;
          _ ← raw_input ; mret tt
      end
  end.

(** [CloneBot.do_clone_structure] (main.py 1174-1202). *)
Definition do_clone_structure : M unit :=
  match scraped_data bot with
  | None => mret tt
  | Some src =>
      match check_target bot with
      | None => mret tt
      | Some t =>
          answer ← get_input ;
          (if String.eqb answer "y" then reset_stats ;; channels_delete t else mret tt) ;;
          reset_stats ;; categories_create t (src_channels src) ;;
          reset_stats ;; channels_create t (src_channels src) ;;
          _ ← raw_input ; mret tt
      end
  end.

(** [CloneBot.do_clone_emojis] (main.py 1204-1229). *)
Definition do_clone_emojis : M unit :=
  match scraped_data bot with
  | None => mret tt
  | Some src =>
      match check_target bot with
      | None => mret tt
      | Some t =>
          answer ← get_input ;
          (if String.eqb answer "y" then reset_stats ;; emojis_delete t else mret tt) ;;
          reset_stats ;; emojis_create (src_emojis src) ;;
          _ ← raw_input ; mret tt
      end
  end.


End Clone.

(** ** More of [CloneBot] *)

(** [CloneBot.get_target] (main.py 1053-1056). *)
Definition get_target (c : cfg) : option target :=
  match client c with
  | None => None
  | Some gs =>
      match target_id c with
      | None => None
      | Some tid => if tid =? 0 then None else get_guild gs tid
      end
  end.

Definition with_target_id (c : cfg) (tid : Z) : cfg :=
  mkcfg (client c) (Some tid) (source_id c) (scraped_data c).

(** The guild the answer [sel] of [set_target] designates (main.py
    1027-1048): [int(sel)] read as a 1-based row of [self.client.guilds]
    when in range, else as a guild id; [None] when [int()] raises or no
    guild matches. *)
Definition select_target (gs : list target) (sel : string) : option target :=
  match py_int_of_str sel with
  | Raise _ => None
  | Ret num =>
      if (1 <=? num) && (num <=? Z.of_nat (length gs)) then nth_error gs (Z.to_nat (num - 1))
      else get_guild gs num
  end.

(** [CloneBot.set_target] (main.py 1003-1051) on the line typed: the new
    configuration and the [self.log] entry (level, message).  The table
    printed and the ["press enter..."] prompt are not modelled. *)
Definition set_target (c : cfg) (line : string) : cfg * (string * string) :=
  match client c with
  | None => (c, ("err", "connect bot first"))
  | Some gs =>
      match select_target gs (py_strip line) with
      | Some g => (with_target_id c (t_id g), ("ok", ("target: " ++ t_name g)%string))
      | None => (c, ("err", "invalid selection"))
      end
  end.

(** [deque.append] on a deque with [maxlen]: when full, the leftmost
    entry is dropped. *)
Definition deque_append {A} (maxlen : nat) (d : list A) (x : A) : list A :=
  if bool_decide (length d < maxlen)%nat then d ++ [x] else drop 1 (d ++ [x]).

(** A [CloneBot.logs] entry: time, level, message. *)
Definition log_entry : Type := string * string * string.

(** [self.logs.append((t, lvl, msg))] of [CloneBot.log] (main.py 589-595),
    on [deque(maxlen=30)]. *)
Definition bot_log (logs : list log_entry) (e : log_entry) : list log_entry :=
  deque_append 30 logs e.

(** Consecutive [CloneBot.log] calls. *)
Definition bot_log_all (logs : list log_entry) (es : list log_entry) : list log_entry :=
  fold_left bot_log es logs.

(** [l[-n:]] *)
Definition lastn {A} (n : nat) (l : list A) : list A := drop (length l - n) l.

(** [colors.get(lvl, "white")] *)
Definition level_color (lvl : string) : string :=
  if String.eqb lvl "info" then "blue"
  else if String.eqb lvl "ok" then "green"
  else if String.eqb lvl "warn" then "yellow"
  else if String.eqb lvl "err" then "red"
  else "white".

Definition log_line (e : log_entry) : string :=
  let '(t, lvl, msg) := e in
  let c := level_color lvl in
  "[dim]" ++ t ++ "[/dim] [" ++ c ++ "]" ++ msg ++ "[/" ++ c ++ "]".

Definition newline : string := String (ascii_of_nat 10) EmptyString.

(** The text of the log panel of [CloneBot.show_logs] (main.py 735-743). *)
Definition show_logs_text (logs : list log_entry) : string :=
  match map log_line (lastn 5 logs) with
  | [] => "[dim]waiting...[/dim]"
  | lines => String.concat newline lines
  end.

(** [CloneBot.source_id] and [CloneBot.scraped_data] as [scrape_source]
    sets them. *)
Record scrape_state := mkscrape { sc_source_id : option Z; sc_data : option snapshot }.

(** [d.get(k)] on a decoded JSON object. *)
Definition dict_get (k : string) (v : pyval) : option pyval :=
  match v with
  | PDict d => option_map snd (find (λ kv, String.eqb kv.1 k) d)
  | _ => None
  end.

(** [CloneBot.scrape_source] (main.py 962-1001) on the line typed, with
    [scrape_server] reading through [get]: the new state, the [self.log]
    entries (level, message) and the endpoints read.  [has_scraper] is
    [self.scraper] being set. *)
Definition scrape_source (has_scraper : bool) (get : string → pyval) (line : string)
    (b : scrape_state) : scrape_state * list (string * string) * list string :=
  if negb has_scraper then (b, [("err", "no user token")], [])
  else
    match py_int_of_str (py_strip line) with
    | Raise _ => (b, [("err", "invalid id")], [])
    | Ret sid =>
        let '(eps, snap) := scrape_server get sid in
        let guild := s_guild snap in
        let report :=
          match guild with
          | PDict _ =>
              match dict_get "error" guild with
              | Some e =>
                  ("err", ("error: " ++ py_str e)%string)
                    :: match dict_get "status" guild with
                       | Some st => [("err", ("status code: " ++ py_str st)%string)]
                       | None => []
                       end
              | None =>
                  match dict_get "name" guild with
                  | None => [("err", "no guild data returned")]
                  | Some n =>
                      [("ok", ("success: " ++ py_str n)%string);
                       ("info", ("data: " ++ pretty (length (s_channels snap)) ++ " channels, "
                                  ++ pretty (length (s_roles snap)) ++ " roles, "
                                  ++ pretty (length (s_emojis snap)) ++ " emojis")%string)]
                  end
              end
          | _ => [("err", "invalid response format")]
          end in
        (mkscrape (Some sid) (Some snap), ("info", ("scraping " ++ pretty sid ++ "...")%string) :: report, eps)
    end.

(** ** Predicates and sample data of the properties *)

(** A channel record with another [parent_id]. *)
Definition with_parent (cd : chan_rec) (p : key) : chan_rec :=
  mkchan (c_id cd) (c_type cd) (c_name cd) p (c_position cd) (c_overwrites cd)
         (c_topic cd) (c_rate_limit cd) (c_nsfw cd) (c_bitrate cd) (c_user_limit cd).

(** The precondition [check_target] tests: a bot is connected, a non-zero
    target id is set, the bot is in that guild and holds both
    [manage_channels] and [manage_roles] there. *)
Definition precondition_holds (c : cfg) : Prop :=
  ∃ gs tid t, client c = Some gs ∧ target_id c = Some tid ∧ tid ≠ 0 ∧
    get_guild gs tid = Some t ∧ t_manage_channels t = true ∧ t_manage_roles t = true.

(** Nothing of the target changed between [s] and [s']: no call was
    issued and the three remapper dicts are the same. *)
Definition target_untouched (s s' : st) : Prop :=
  trace s' = trace s ∧ role_map s' = role_map s ∧ cat_map s' = cat_map s ∧
  chan_map s' = chan_map s.

(** The next line of standard input, once stripped, is not [word]. *)
Definition next_answer_not (word : string) (s : st) : Prop :=
  ∀ l, hd_error (inputs s) = Some l → py_strip l ≠ word.

(** A leaf creation call of [channels_create] was issued for a source
    channel of [chans] with the same id and name, whose category is the
    one [resolve_parent] finds in [cm]. *)
Definition leaf_origin (chans : list chan_rec) (cm : gmap key handle) (ev : event) : Prop :=
  match ev with
  | (k, CreateLeaf _ n cat _ _, _) =>
      ∃ cd, cd ∈ chans ∧ c_id cd = k ∧ c_name cd = n ∧ cat = resolve_parent cm (c_parent cd)
  | _ => True
  end.

(** [m] keeps the state predicate [P]: a Hoare triple [{P} m {P}] that
    holds whether [m] returns or raises. *)
Definition pres {A} (P : st → Prop) (m : M A) : Prop := ∀ s, P s → P (snd (m s)).

(** [P] only reads the issued calls and the remapper dicts. *)
Definition reads_maps_trace (P : st → Prop) : Prop :=
  ∀ s s', trace s' = trace s → role_map s' = role_map s → cat_map s' = cat_map s →
    chan_map s' = chan_map s → P s → P s'.

(** Invariant of [channels_create] for the source channels [chans]:
    [cat_map] is still [cm] and every leaf creation issued since [base]
    has its category from [cm]. *)
Definition leaf_inv (chans : list chan_rec) (cm : gmap key handle) (base : list event)
    (s : st) : Prop :=
  cat_map s = cm ∧ ∃ new, trace s = new ++ base ∧ Forall (leaf_origin chans cm) new.

(** The calls after whose success the program registers a remapper
    entry: a role's creation or [@everyone]'s permission edit, a
    category's position edit (the second call of its creation), a leaf's
    creation. *)
Definition registers (c : call) : bool :=
  match c with
  | CreateRole _ _ _ _ _ | EditRolePerms _ _ | EditCategoryPosition _ _
  | CreateLeaf _ _ _ _ _ => true
  | _ => false
  end.

Definition role_write (c : call) : bool :=
  match c with CreateRole _ _ _ _ _ | EditRolePerms _ _ => true | _ => false end.

(** An issued call that registers nothing: it failed, or it is of no
    registering kind. *)
Definition neutral (ev : event) : bool :=
  match ev with
  | (_, c, Ret _) => negb (registers c)
  | (_, _, Raise _) => true
  end.

(** [role_map] against the calls [new]: each entry is the role a
    successful [create_role] for that source id returned, or the default
    role whose permission edit for that id succeeded; each id with such a
    successful call has an entry. *)
Definition role_registered (new : list event) (rm : gmap key handle) : Prop :=
  (∀ k h, rm !! k = Some h →
     (∃ n p col ho mn, (k, CreateRole n p col ho mn, Ret h) ∈ new) ∨
     (∃ p h', (k, EditRolePerms h p, Ret h') ∈ new)) ∧
  (∀ k c h, (k, c, Ret h) ∈ new → role_write c = true → is_Some (rm !! k)).

(** [cat_map] against [new]: each entry is a category whose
    [create_category] and then position edit succeeded for that id; each
    id with a successful position edit has an entry. *)
Definition cat_registered (new : list event) (cm : gmap key handle) : Prop :=
  (∀ k h, cm !! k = Some h →
     (∃ n ow, (k, CreateCategory n ow, Ret h) ∈ new) ∧
     (∃ pos h', (k, EditCategoryPosition h pos, Ret h') ∈ new)) ∧
  (∀ k h pos h', (k, EditCategoryPosition h pos, Ret h') ∈ new → is_Some (cm !! k)).

(** [chan_map] against [new]: each entry is a channel whose creation for
    that id succeeded; each id with a successful creation has an entry. *)
Definition chan_registered (new : list event) (chm : gmap key handle) : Prop :=
  (∀ k h, chm !! k = Some h → ∃ lc n cat ow pos, (k, CreateLeaf lc n cat ow pos, Ret h) ∈ new) ∧
  (∀ k lc n cat ow pos h, (k, CreateLeaf lc n cat ow pos, Ret h) ∈ new → is_Some (chm !! k)).

(** The three dicts match the calls issued since [base]. *)
Definition registry_inv (base : list event) (s : st) : Prop :=
  ∃ new, trace s = new ++ base ∧ role_registered new (role_map s) ∧
    cat_registered new (cat_map s) ∧ chan_registered new (chan_map s).

(** A numeric field [safe_int] converts without raising: anything but an
    infinite or NaN float. *)
Definition finite_val (v : pyval) : bool :=
  match v with
  | PFloat (S754_infinity _) | PFloat S754_nan => false
  | _ => true
  end.

Definition ow_finite (ow : overwrite) : bool :=
  finite_val (ow_id ow) && finite_val (ow_allow ow) && finite_val (ow_deny ow).

Definition role_finite (rd : role_rec) : bool :=
  finite_val (r_permissions rd) && finite_val (r_color rd) && finite_val (r_position rd).

Definition chan_finite (cd : chan_rec) : bool :=
  finite_val (c_type cd) && finite_val (c_position cd) && finite_val (c_rate_limit cd) &&
  finite_val (c_bitrate cd) && finite_val (c_user_limit cd) &&
  forallb ow_finite (c_overwrites cd).

(** Every failure of the remote API is a [discord.HTTPException]
    ([discord.Forbidden] included). *)
Definition api_http_only (api : list event → call → pyres handle) : Prop :=
  ∀ h c e, api h c = Raise e → is_http e = true.

(** A failed call that the item loops count with [log_error]: all but
    the role reordering and the news conversion, which swallow theirs. *)
Definition counted_failure (ev : event) : bool :=
  match ev with
  | (_, c, Raise _) =>
      match c with EditRolePosition _ _ | EditNewsType _ => false | _ => true end
  | (_, _, Ret _) => false
  end.

Definition count_failed (evs : list event) : nat := length (List.filter counted_failure evs).

(** [m], run from [s], returns normally with [n] completed items, and
    its [log_error] count went up by the number of counted failed calls
    it issued, plus [extra] errors not due to a failed call ([extra] is 0
    when [exact]). *)
Definition phase_report (m : M unit) (n : nat) (exact : bool) (s : st) : Prop :=
  ∃ s', m s = (Ret tt, s') ∧ completed s' = n ∧
    ∃ new (extra : nat), trace s' = new ++ trace s ∧
      (errors s' = errors s + count_failed new + extra ∧ (exact = true → extra = 0))%nat.

(** The same for one item, from any state: [completed] goes up by one. *)
Definition item_report (m : M unit) (exact : bool) : Prop :=
  ∀ s, phase_report m (S (completed s)) exact s.

(** An API on which only the role reordering fails. *)
Definition api_reorder_fails : list event → call → pyres handle :=
  λ h c, match c with
         | EditRolePosition _ _ => Raise HTTPError
         | _ => Ret (mkhandle (Z.of_nat (length h) + 100) "x")
         end.

Definition sample_default : handle := mkhandle 1 "@everyone".

Definition sample_target : target :=
  mktarget 10 "T" sample_default [sample_default; mkhandle 2 "old"] [mkhandle 3 "c"] []
           true true.

Definition sample_category : chan_rec :=
  mkchan (KStr "100") (PInt 4) "cat" KNone (PInt 0) [] PNone PNone PNone PNone PNone.

Definition sample_leaf : chan_rec :=
  mkchan (KStr "101") (PInt 0) "gen" (KStr "100") (PInt 1)
         [mkoverwrite (PInt 0) (PStr "5") (PInt 1024) (PInt 0)] PNone PNone PNone PNone PNone.

Definition sample_role : role_rec :=
  mkrole (KStr "7") "mod" (PInt 8) (PInt 0) (PBool true) (PStr "False") (PInt 1).

Definition sample_source : source :=
  mksource (Some (mkguild (PStr "5") "Src" PNone)) [sample_role]
           [sample_category; sample_leaf] [].

Definition sample_bot : cfg := mkcfg (Some [sample_target]) (Some 10) (Some 5) (Some sample_source).

(** The same bot in a guild where it lacks [manage_roles]. *)
Definition sample_bot_no_roles : cfg :=
  mkcfg (Some [mktarget 10 "T" sample_default [] [] [] true false]) (Some 10) (Some 5)
        (Some sample_source).

(** An API on which every call succeeds, returning a fresh object. *)
Definition api_ok : list event → call → pyres handle :=
  λ h _, Ret (mkhandle (Z.of_nat (length h) + 100) "x").

(** An API on which every call but the position edits of categories and roles succeeds. *)
Definition api_position_fails : list event → call → pyres handle :=
  λ h c, match c with
         | EditCategoryPosition _ _ => Raise HTTPError
         | EditRolePosition _ _ => Raise HTTPError
         | _ => Ret (mkhandle (Z.of_nat (length h) + 100) "x")
         end.

Definition fetch_404 : string → pyres Z := λ _, Ret 404.

(** An API on which every deletion fails: role deletions with
    [Forbidden], channel and emoji deletions with another
    [HTTPException]. *)
Definition api_delete_fails : list event → call → pyres handle :=
  λ h c, match c with
         | DeleteRole _ => Raise Forbidden
         | DeleteChannel _ | DeleteEmoji _ => Raise HTTPError
         | _ => Ret (mkhandle (Z.of_nat (length h) + 100) "x")
         end.

(** A state with no calls issued and the given standard input. *)
Definition sample_state (l : list string) : st := mkst ∅ ∅ ∅ "idle" 0 0 0 [] [] l.

(** Reads of guild 1 where the guild document is fine, the channel
    read returned [chan_doc] and the other two lists are empty. *)
Definition reads_with (chan_doc : pyval) : string → pyval :=
  λ ep, if String.eqb ep (guild_endpoint 1) then PDict [("name", PStr "src")]
        else if String.eqb ep (channels_endpoint 1) then chan_doc
        else PList [].

Definition ows_example : list overwrite :=
  [mkoverwrite (PInt 0) (PStr "5") (PInt 1024) (PInt 0);
   mkoverwrite (PInt 1) (PStr "77") (PInt 8) (PInt 0);
   mkoverwrite (PInt 0) (PStr "99") (PInt 2) (PInt 0)].

(** Kinds of calls: the guild settings of phase 1, the deletions of
    phase 2, and the calls that rebuild roles, categories, channels and
    emojis in phases 3 to 5. *)
Definition guild_call (c : call) : bool :=
  match c with EditGuildName _ | EditGuildIcon _ => true | _ => false end.

Definition is_delete (c : call) : bool :=
  match c with DeleteEmoji _ | DeleteChannel _ | DeleteRole _ => true | _ => false end.

Definition rebuild_call (c : call) : bool :=
  match c with
  | EditRolePerms _ _ | CreateRole _ _ _ _ _ | EditRolePosition _ _
  | CreateCategory _ _ | EditCategoryPosition _ _
  | CreateLeaf _ _ _ _ _ | EditNewsType _ | CreateEmoji _ _ => true
  | _ => false
  end.

Definition ev_call (ev : event) : call := ev.1.2.

(** The calls issued since the trace was [base] all satisfy [Q]. *)
Definition calls_since (Q : call → Prop) (base : list event) (s : st) : Prop :=
  ∃ new, trace s = new ++ base ∧ Forall (λ ev, Q (ev_call ev)) new.

(** The calls issued since [base] are, in the order issued, guild calls,
    then deletions, then rebuild calls (the trace is latest first). *)
Definition phase_ordered (base : list event) (s : st) : Prop :=
  ∃ cr del ge, trace s = cr ++ del ++ ge ++ base ∧
    Forall (λ ev, rebuild_call (ev_call ev) = true) cr ∧
    Forall (λ ev, is_delete (ev_call ev) = true) del ∧
    Forall (λ ev, guild_call (ev_call ev) = true) ge.

(** The same, up to phase [r]: no deletion before phase 2, no rebuild
    call before phase 3. *)
Definition stage (r : nat) (base : list event) (s : st) : Prop :=
  ∃ cr del ge, trace s = cr ++ del ++ ge ++ base ∧
    Forall (λ ev, rebuild_call (ev_call ev) = true) cr ∧
    Forall (λ ev, is_delete (ev_call ev) = true) del ∧
    Forall (λ ev, guild_call (ev_call ev) = true) ge ∧
    ((r < 2)%nat → cr = []) ∧ ((r < 1)%nat → del = []).

(** [m] leads from states satisfying [P] to states satisfying [Q], also
    when it raises. *)
Definition post {A} (P Q : st → Prop) (m : M A) : Prop := ∀ s, P s → Q (snd (m s)).

(** The entry an overwrite adds, when it adds one. *)
Definition ow_target (rm : gmap key handle) (src_id : option Z) (dflt : handle)
    (ow : overwrite) : option handle :=
  match safe_int (ow_id ow) 0 with
  | Ret sid => if py_eq_int (ow_type ow) 0 then resolve_group rm src_id dflt sid else None
  | Raise _ => None
  end.

(** A second guild the bot is in. *)
Definition sample_second : target :=
  mktarget 2 "U" sample_default [] [] [] true true.

(** * Properties *)

(** ** [safe_int] *)

(** Every value other than a non-finite float gets an int back. *)
Lemma safe_int_total_on_finite (v : pyval) (d : Z) :
  (∀ s, v ≠ PFloat (S754_infinity s)) → v ≠ PFloat S754_nan →
  ∃ z, safe_int v d = Ret z.
Proof.
  intros Hinf Hnan. destruct v as [| b | z | f | s | l | kv]; simpl; eauto.
  - destruct f as [sg | sg | | sg m e]; simpl; eauto.
    + exfalso. exact (Hinf sg eq_refl).
    + exfalso. exact (Hnan eq_refl).
  - destruct (py_int_of_str s); eauto.
Qed.

(** C9 (code_bug): [safe_int] raises on an infinite float: its float
    branch calls [int(value)] outside any [try], unlike its string
    branch, and [int(float("inf"))] raises [OverflowError]. *)
Theorem safe_int_inf_raises :
  safe_int (PFloat (S754_infinity false)) 0 = Raise OverflowError.
Proof. reflexivity. Qed.

(** ** [APIScraper.get] *)

Lemma get_depth_after_429s (k : nat) :
  ∀ rs j depth,
    (∀ i, (i < k)%nat → is_429 (rs (j + i)%nat) = true ∧
                         header_parses (header_of (rs (j + i)%nat)) = true) →
    (is_429 (rs (j + k)%nat) = false → (k < depth)%nat →
     get_depth depth rs j
     = (final_doc (rs (j + k)%nat),
        map (λ i, delay_of (header_of (rs i))) (seq j k), S (j + k))) ∧
    ((depth <= k)%nat →
     get_depth depth rs j
     = (err_doc (exc_str RecursionError) None,
        map (λ i, delay_of (header_of (rs i))) (seq j depth), (j + depth)%nat)).
Proof.
  induction k as [| k IH]; intros rs j depth H429; split.
  - intros Hk Hd. destruct depth as [| depth]; [lia |]. rewrite Nat.add_0_r in Hk |- *.
    simpl. destruct (rs j) as [status hdr body | msg]; simpl in Hk |- *; [| reflexivity].
    destruct (status =? 200); [destruct body; reflexivity |].
    rewrite Hk. destruct (status =? 403); [reflexivity |].
    destruct (status =? 401); reflexivity.
  - intros Hd. assert (depth = 0%nat) as -> by lia. simpl. by rewrite Nat.add_0_r.
  - intros Hk Hd. destruct depth as [| depth]; [lia |].
    destruct (H429 0%nat ltac:(lia)) as [Hj Hp]. rewrite Nat.add_0_r in Hj, Hp.
    simpl. destruct (rs j) as [status hdr body | msg] eqn:Hrs; simpl in Hj, Hp; [| discriminate].
    apply Z.eqb_eq in Hj. subst status. simpl.
    assert (Hdl : retry_delay hdr = Ret (delay_of hdr)).
    { destruct hdr as [[q |] |]; simpl in Hp |- *; congruence. }
    rewrite Hdl.
    destruct (IH rs (S j) depth) as [IH1 _].
    { intros i Hi. replace (S j + i)%nat with (j + S i)%nat by lia. apply H429. lia. }
    rewrite IH1.
    + rewrite Nat.add_succ_r. reflexivity.
    + replace (S j + k)%nat with (j + S k)%nat by lia. exact Hk.
    + lia.
  - intros Hd. destruct depth as [| depth]; [simpl; by rewrite Nat.add_0_r |].
    destruct (H429 0%nat ltac:(lia)) as [Hj Hp]. rewrite Nat.add_0_r in Hj, Hp.
    simpl. destruct (rs j) as [status hdr body | msg] eqn:Hrs; simpl in Hj, Hp; [| discriminate].
    apply Z.eqb_eq in Hj. subst status. simpl.
    assert (Hdl : retry_delay hdr = Ret (delay_of hdr)).
    { destruct hdr as [[q |] |]; simpl in Hp |- *; congruence. }
    rewrite Hdl.
    destruct (IH rs (S j) depth) as [_ IH2].
    { intros i Hi. replace (S j + i)%nat with (j + S i)%nat by lia. apply H429. lia. }
    rewrite IH2 by lia.
    rewrite Nat.add_succ_r. reflexivity.
Qed.




(** ** [APIScraper.scrape_server] *)

(** C4 (counterexample): a channel read refused with 403 yields the same
    snapshot as one that failed with 500 and as a successful read of an
    empty list: the failure reason is not kept. *)
Lemma scrape_server_drops_failure_reason :
  (scrape_server (reads_with (err_doc "forbidden" (Some 403))) 1).2
  = (scrape_server (reads_with (err_doc "http 500" (Some 500))) 1).2 ∧
  (scrape_server (reads_with (err_doc "forbidden" (Some 403))) 1).2
  = (scrape_server (reads_with (PList [])) 1).2.
Proof. split; vm_compute; reflexivity. Qed.

(** C4 (as amended): the four reads are issued in order; a channel, role
    or emoji read that failed (an error document) becomes an empty list
    and its reason is not kept, since the snapshot has no field for it;
    a failed guild read is kept as the error document in [guild]; the
    capture always returns a snapshot. *)
Theorem scrape_server_defaults (get : string → pyval) (gid : Z) :
  (scrape_server get gid).1
  = [guild_endpoint gid; channels_endpoint gid; roles_endpoint gid; emojis_endpoint gid] ∧
  s_id (scrape_server get gid).2 = gid ∧
  (is_err_doc (get (guild_endpoint gid)) = true →
   s_guild (scrape_server get gid).2 = get (guild_endpoint gid)) ∧
  (is_err_doc (get (channels_endpoint gid)) = true → s_channels (scrape_server get gid).2 = []) ∧
  (is_err_doc (get (roles_endpoint gid)) = true → s_roles (scrape_server get gid).2 = []) ∧
  (is_err_doc (get (emojis_endpoint gid)) = true → s_emojis (scrape_server get gid).2 = []).
Proof.
  unfold scrape_server; simpl.
  split; [reflexivity |]. split; [reflexivity |].
  repeat split; intros H;
    [destruct (get (guild_endpoint gid)) | destruct (get (channels_endpoint gid))
    | destruct (get (roles_endpoint gid)) | destruct (get (emojis_endpoint gid))];
    simpl in H |- *; try discriminate; reflexivity.
Qed.

Lemma scrape_server_defaults_witness :
  s_channels (scrape_server (reads_with (err_doc "forbidden" (Some 403))) 1).2 = [].
Proof.
  destruct (scrape_server_defaults (reads_with (err_doc "forbidden" (Some 403))) 1)
    as (_ & _ & _ & Hc & _).
  apply Hc. vm_compute. reflexivity.
Defined.

(** ** [parse_permission_overwrites] *)

Lemma ow_set_elem (k : handle) (w : Z * Z) (d : overwrites_to) h v :
  (h, v) ∈ ow_set k w d → (h, v) = (k, w) ∨ (h, v) ∈ d.
Proof.
  induction d as [| [k' v'] d IH]; simpl.
  - rewrite list_elem_of_singleton. auto.
  - case_decide; rewrite elem_of_cons.
    + intros [Heq | Hin]; [auto | right; by right].
    + intros [Heq | Hin]; [right; rewrite Heq; by left |].
      destruct (IH Hin) as [? | ?]; [auto | right; by right].
Qed.

Lemma parse_ows_origin rm src dflt ows :
  ∀ acc out, parse_ows rm src dflt ows acc = Ret out →
  ∀ h a d, (h, (a, d)) ∈ out →
  (h, (a, d)) ∈ acc ∨
  ∃ ow sid, ow ∈ ows ∧ py_eq_int (ow_type ow) 0 = true ∧ safe_int (ow_id ow) 0 = Ret sid ∧
    safe_int (ow_allow ow) 0 = Ret a ∧ safe_int (ow_deny ow) 0 = Ret d ∧
    (rm !! KInt sid = Some h ∨ (rm !! KInt sid = None ∧ src = Some sid ∧ h = dflt)).
Proof.
  induction ows as [| ow r IH]; simpl; intros acc out Hp h a d Hin.
  - injection Hp as <-. auto.
  - destruct (safe_int (ow_id ow) 0) as [sid | e] eqn:Hid; [| discriminate].
    destruct (safe_int (ow_allow ow) 0) as [al | e] eqn:Hal; [| discriminate].
    destruct (safe_int (ow_deny ow) 0) as [de | e] eqn:Hde; [| discriminate].
    destruct (IH _ _ Hp h a d Hin) as [Hacc | (ow' & sid' & Hin' & Hrest)].
    2: { right. exists ow', sid'. split; [by right | exact Hrest]. }
    destruct (py_eq_int (ow_type ow) 0) eqn:Hty; [| auto].
    unfold resolve_group in Hacc.
    destruct (rm !! KInt sid) as [h0 |] eqn:Hrm.
    + apply ow_set_elem in Hacc as [Heq | Hacc]; [| auto].
      injection Heq as -> -> ->. right. exists ow, sid.
      repeat split; try assumption; by left.
    + case_bool_decide as Hs.
      * apply ow_set_elem in Hacc as [Heq | Hacc]; [| auto].
        injection Heq as -> -> ->. right. exists ow, sid.
        repeat split; try assumption; [by left | right; auto].
      * auto.
Qed.

(** C5: the translated dict only holds entries for overwrites of group
    kind ([type == 0]) whose id resolves to a target role: found under the
    id in [role_map], or, when absent there and equal to the source guild
    id, the target's default role; member overwrites and unresolved group
    overwrites produce nothing.  The lookup key is the id as [safe_int]
    converts it. *)
Theorem overwrites_only_resolved_groups rm src dflt ows out :
  parse_permission_overwrites rm src dflt ows = Ret out →
  ∀ h a d, (h, (a, d)) ∈ out →
  ∃ ow sid, ow ∈ ows ∧ py_eq_int (ow_type ow) 0 = true ∧ safe_int (ow_id ow) 0 = Ret sid ∧
    safe_int (ow_allow ow) 0 = Ret a ∧ safe_int (ow_deny ow) 0 = Ret d ∧
    (rm !! KInt sid = Some h ∨ (rm !! KInt sid = None ∧ src = Some sid ∧ h = dflt)).
Proof.
  intros Hp h a d Hin.
  destruct (parse_ows_origin rm src dflt ows [] out Hp h a d Hin) as [Hnil | Hex].
  - by apply elem_of_nil in Hnil.
  - exact Hex.
Qed.

Lemma overwrites_only_resolved_groups_witness :
  ∃ ow sid, ow ∈ ows_example ∧ py_eq_int (ow_type ow) 0 = true ∧
    safe_int (ow_id ow) 0 = Ret sid ∧
    safe_int (ow_allow ow) 0 = Ret 1024 ∧ safe_int (ow_deny ow) 0 = Ret 0 ∧
    ((∅ : gmap key handle) !! KInt sid = Some (mkhandle 1 "@everyone") ∨
     ((∅ : gmap key handle) !! KInt sid = None ∧ Some 5 = Some sid ∧
      mkhandle 1 "@everyone" = mkhandle 1 "@everyone")).
Proof.
  apply (overwrites_only_resolved_groups ∅ (Some 5) (mkhandle 1 "@everyone") ows_example
           [(mkhandle 1 "@everyone", (1024, 0))]).
  - vm_compute. reflexivity.
  - by left.
Defined.

(** Source role ids are JSON strings while the lookup key is the int
    [safe_int] makes of the overwrite's id, so a role registered under
    ["7"] is not found for an overwrite with id ["7"]. *)
Example overwrite_string_id_not_found :
  parse_permission_overwrites (<[KStr "7" := mkhandle 3 "mod"]> ∅) (Some 5)
    (mkhandle 1 "@everyone") [mkoverwrite (PInt 0) (PStr "7") (PInt 8) (PInt 0)]
  = Ret [].
Proof. vm_compute. reflexivity. Qed.

(** ** Reasoning about the monad *)

Section Frame.

Variable P : st → Prop.

Lemma pres_ret {A} (a : A) : pres P (mret a).
Proof. intros s Hs. exact Hs. Qed.

Lemma pres_bind {A B} (m : M A) (k : A → M B) :
  pres P m → (∀ a, pres P (k a)) → pres P (x ← m ; k x).
Proof.
  intros Hm Hk s Hs. unfold mbind, M_bind.
  specialize (Hm s Hs). destruct (m s) as [[a | e] s']; simpl in *; [apply Hk |]; exact Hm.
Qed.

Lemma pres_bind_res {A B} (r : pyres A) (k : A → M B) :
  (∀ a, r = Ret a → pres P (k a)) → pres P (x ← of_res r ; k x).
Proof.
  intros Hk s Hs. unfold mbind, M_bind, of_res.
  destruct r as [a | e]; simpl; [apply (Hk a eq_refl) |]; exact Hs.
Qed.

Lemma pres_gets_bind {A B} (f : st → A) (a0 : A) (k : A → M B) :
  (∀ s, P s → f s = a0) → pres P (k a0) → pres P (x ← gets f ; k x).
Proof.
  intros Hf Hk s Hs. unfold mbind, M_bind, gets. rewrite (Hf s Hs). exact (Hk s Hs).
Qed.

Lemma pres_gets {A} (f : st → A) : pres P (gets f).
Proof. intros s Hs. exact Hs. Qed.

Lemma pres_of_res {A} (r : pyres A) : pres P (of_res r).
Proof. intros s Hs. exact Hs. Qed.

Lemma pres_modify (f : st → st) : (∀ s, P s → P (f s)) → pres P (modify f).
Proof. intros Hf s Hs. exact (Hf s Hs). Qed.

Lemma pres_try {A} (m : M A) (handled : exc → bool) (h : exc → M A) :
  pres P m → (∀ e, pres P (h e)) → pres P (try_except m handled h).
Proof.
  intros Hm Hh s Hs. unfold try_except.
  specialize (Hm s Hs). destruct (m s) as [[a | e] s']; simpl in *; [exact Hm |].
  destruct (handled e); [apply Hh |]; exact Hm.
Qed.

Lemma pres_if {A} (b : bool) (m1 m2 : M A) :
  pres P m1 → pres P m2 → pres P (if b then m1 else m2).
Proof. by destruct b. Qed.

Lemma pres_for_each {A} (l : list A) (body : A → M unit) :
  (∀ x, x ∈ l → pres P (body x)) → pres P (for_each l body).
Proof.
  induction l as [| x r IH]; simpl; intros Hb.
  - apply pres_ret.
  - apply pres_bind; [apply Hb; by left |].
    intros _. apply IH. intros y Hy. apply Hb. by right.
Qed.

Lemma pres_issue api tag c :
  (∀ s, P s → P (add_event (tag, c, api (trace s) c) s)) → pres P (issue api tag c).
Proof. intros Hi s Hs. exact (Hi s Hs). Qed.

Hypothesis HP : reads_maps_trace P.

Lemma pres_log_add m : pres P (log_add m).
Proof. apply pres_modify. intros s. apply HP; reflexivity. Qed.

Lemma pres_log_delete m : pres P (log_delete m).
Proof. apply pres_modify. intros s. apply HP; reflexivity. Qed.

Lemma pres_log_error m : pres P (log_error m).
Proof. apply pres_modify. intros s. apply HP; reflexivity. Qed.

Lemma pres_out l : pres P (modify (add_out l)).
Proof. apply pres_modify. intros s. apply HP; reflexivity. Qed.

Lemma pres_set_op op : pres P (set_op op).
Proof. apply pres_modify. intros s. apply HP; reflexivity. Qed.

Lemma pres_set_total n : pres P (set_total n).
Proof. apply pres_modify. intros s. apply HP; reflexivity. Qed.

Lemma pres_incr_completed : pres P incr_completed.
Proof. apply pres_modify. intros s. apply HP; reflexivity. Qed.

Lemma pres_reset_stats : pres P reset_stats.
Proof. apply pres_modify. intros s. apply HP; reflexivity. Qed.

Lemma pres_leaf_call_of ct cd : pres P (leaf_call_of ct cd).
Proof.
  unfold leaf_call_of.
  repeat apply pres_if; repeat (apply pres_bind_res; intros ? _); apply pres_ret.
Qed.

End Frame.

Create HintDb frame.
#[local] Hint Resolve pres_ret pres_gets pres_of_res pres_log_add pres_log_delete
  pres_log_error pres_out pres_set_op pres_set_total pres_incr_completed
  pres_reset_stats pres_leaf_call_of : frame.

(** The items a sorted list holds are items of the list sorted. *)
Lemma keyed_snd {A} (f : A → pyval) l kl : keyed f l = Ret kl → map snd kl = l.
Proof.
  revert kl. induction l as [| x r IH]; simpl; intros kl Hk.
  - by injection Hk as <-.
  - destruct (safe_int (f x) 0) as [k | e]; [| discriminate].
    destruct (keyed f r) as [kr | e] eqn:Hr; [| discriminate].
    injection Hk as <-. simpl. by rewrite (IH kr eq_refl).
Qed.

Lemma insert_keyed_elem {A} (p : Z * A) l x : x ∈ insert_keyed p l → x = p ∨ x ∈ l.
Proof.
  induction l as [| q r IH]; simpl.
  - rewrite list_elem_of_singleton. auto.
  - destruct (p.1 <? q.1); rewrite elem_of_cons; [auto |].
    intros [-> | Hx]; [right; by left |].
    destruct (IH Hx) as [-> | Hr]; [auto | right; by right].
Qed.

Lemma fold_insert_elem {A} (kl acc : list (Z * A)) x :
  x ∈ fold_left (λ acc p, insert_keyed p acc) kl acc → x ∈ acc ∨ x ∈ kl.
Proof.
  revert acc. induction kl as [| p r IH]; simpl; intros acc Hx; [auto |].
  destruct (IH _ Hx) as [Hin | Hin].
  - destruct (insert_keyed_elem p acc x Hin) as [-> | Ha]; [right; by left | auto].
  - right. by right.
Qed.

Lemma sort_by_position_elem {A} (f : A → pyval) l l' :
  sort_by_position f l = Ret l' → ∀ x, x ∈ l' → x ∈ l.
Proof.
  unfold sort_by_position. destruct (keyed f l) as [kl | e] eqn:Hk; [| discriminate].
  intros Hs x Hx. injection Hs as <-.
  apply list_elem_of_fmap in Hx as [[k y] [-> Hy]].
  destruct (fold_insert_elem kl [] (k, y) Hy) as [Hn | Hin]; [by apply elem_of_nil in Hn |].
  rewrite <- (keyed_snd f l kl Hk). simpl.
  apply list_elem_of_fmap. by exists (k, y).
Qed.

(** ** [CloneBot.check_target] and [do_full_clone] *)

Lemma check_target_spec c t : check_target c = Some t → precondition_holds c.
Proof.
  unfold check_target, precondition_holds.
  destruct (client c) as [gs |]; [| discriminate].
  destruct (target_id c) as [tid |]; [| discriminate].
  destruct (tid =? 0) eqn:H0; [discriminate |].
  destruct (get_guild gs tid) as [t' |] eqn:Hg; [| discriminate].
  destruct (t_manage_channels t') eqn:Hc, (t_manage_roles t') eqn:Hr; simpl; try discriminate.
  intros _. exists gs, tid, t'. repeat split; auto. by apply Z.eqb_neq.
Qed.

(** C7: unless the precondition holds (a bot, a target id, the bot in
    that guild with [manage_channels] and [manage_roles]), [do_full_clone]
    returns at once: no call is issued and the state is unchanged. *)
Theorem full_clone_needs_precondition api fetch bot s :
  ¬ precondition_holds bot → do_full_clone api fetch bot s = (Ret tt, s).
Proof.
  intros Hpre. unfold do_full_clone.
  destruct (scraped_data bot) as [src |]; [| reflexivity].
  destruct (check_target bot) as [t |] eqn:Hc; [| reflexivity].
  exfalso. exact (Hpre (check_target_spec bot t Hc)).
Qed.

Lemma full_clone_needs_precondition_witness :
  ¬ precondition_holds sample_bot_no_roles ∧
  do_full_clone api_ok fetch_404 sample_bot_no_roles (sample_state ["clone"])
  = (Ret tt, sample_state ["clone"]).
Proof.
  assert (Hn : ¬ precondition_holds sample_bot_no_roles).
  { intros (gs & tid & t & Hcl & Htid & _ & Hg & _ & Hr).
    injection Hcl as <-. injection Htid as <-. simpl in Hg.
    injection Hg as <-. discriminate Hr. }
  split; [exact Hn |].
  apply (full_clone_needs_precondition api_ok fetch_404 sample_bot_no_roles
           (sample_state ["clone"])).
  exact Hn.
Defined.

(** ** The confirmation prompts *)

Lemma set_inputs_untouched s l : target_untouched s (set_inputs l s).
Proof. repeat split. Qed.

Lemma untouched_refl s : target_untouched s s.
Proof. repeat split. Qed.

(** [get_input] then [if answer != word: return]: unless the stripped
    line is [word], only standard input is consumed. *)
Lemma gate_untouched (word : string) (k : M unit) s :
  next_answer_not word s →
  target_untouched s (snd ((answer ← get_input ;
                             if String.eqb answer word then k else mret tt) s)).
Proof.
  intros Hn. unfold mbind, M_bind, get_input.
  destruct (inputs s) as [| l r] eqn:Hi; simpl; [apply untouched_refl |].
  assert (Hne : py_strip l ≠ word) by (apply Hn; by rewrite Hi).
  apply String.eqb_neq in Hne. rewrite Hne. apply set_inputs_untouched.
Qed.

(** C10: the confirmation compares the answer after [strip()]: when the
    next input line, stripped, is not ["clone"], [do_full_clone] issues no
    call and leaves the remapper dicts as they were; when it is not
    ["delete"], [do_delete_roles] and [do_delete_channels] issue no call
    (a missing line raises [EOFError] before anything happens). *)
Theorem confirmation_gates api fetch bot s :
  (next_answer_not "clone" s → target_untouched s (snd (do_full_clone api fetch bot s))) ∧
  (next_answer_not "delete" s → target_untouched s (snd (do_delete_roles api bot s))) ∧
  (next_answer_not "delete" s → target_untouched s (snd (do_delete_channels api bot s))).
Proof.
  unfold do_full_clone, do_delete_roles, do_delete_channels.
  split_and!; intros Hn.
  - destruct (scraped_data bot) as [src |]; [| apply untouched_refl].
    destruct (check_target bot) as [t |]; [| apply untouched_refl].
    destruct (src_guild src) as [g |]; [| apply untouched_refl].
    by apply gate_untouched.
  - destruct (check_target bot) as [t |]; [| apply untouched_refl].
    by apply gate_untouched.
  - destruct (check_target bot) as [t |]; [| apply untouched_refl].
    by apply gate_untouched.
Qed.

Lemma confirmation_gates_witness :
  next_answer_not "clone" (sample_state ["delete"]) ∧
  target_untouched (sample_state ["delete"])
    (snd (do_full_clone api_ok fetch_404 sample_bot (sample_state ["delete"]))) ∧
  next_answer_not "delete" (sample_state ["clone"]) ∧
  target_untouched (sample_state ["clone"])
    (snd (do_delete_roles api_ok sample_bot (sample_state ["clone"]))) ∧
  target_untouched (sample_state ["clone"])
    (snd (do_delete_channels api_ok sample_bot (sample_state ["clone"]))).
Proof.
  assert (Hc : next_answer_not "clone" (sample_state ["delete"])).
  { intros l Hl. injection Hl as <-. vm_compute. discriminate. }
  assert (Hd : next_answer_not "delete" (sample_state ["clone"])).
  { intros l Hl. injection Hl as <-. vm_compute. discriminate. }
  destruct (confirmation_gates api_ok fetch_404 sample_bot (sample_state ["delete"]))
    as (H1 & _ & _).
  destruct (confirmation_gates api_ok fetch_404 sample_bot (sample_state ["clone"]))
    as (_ & H2 & H3).
  split; [exact Hc | split; [exact (H1 Hc) | split; [exact Hd | split; [exact (H2 Hd) | exact (H3 Hd)]]]].
Defined.

(** The confirmation is not an exact match: the answer [" clone"] starts
    the full clone, which issues calls. *)
Lemma clone_answer_is_stripped :
  " clone" ≠ "clone" ∧
  trace (snd (do_full_clone api_ok fetch_404 sample_bot (sample_state [" clone"; ""]))) ≠ [].
Proof. split; [discriminate | vm_compute; discriminate]. Qed.

(** ** [channels_create]: the parent of a leaf *)

Lemma leaf_inv_reads chans cm base : reads_maps_trace (leaf_inv chans cm base).
Proof.
  intros s s' Ht _ Hc _ [Hcm Hn]. split; [by rewrite Hc |]. by rewrite Ht.
Qed.

#[local] Hint Resolve leaf_inv_reads : frame.

Lemma leaf_inv_event chans cm base s ev :
  leaf_origin chans cm ev → leaf_inv chans cm base s → leaf_inv chans cm base (add_event ev s).
Proof.
  intros Hev [Hcm (new & Hn & Hall)]. split; [exact Hcm |].
  exists (ev :: new). split; [simpl; by rewrite Hn |]. by constructor.
Qed.

Lemma leaf_item_pres api bot t chans cm base cd :
  cd ∈ chans → pres (leaf_inv chans cm base) (leaf_item api bot t cd).
Proof.
  intros Hcd. unfold leaf_item.
  apply pres_bind_res. intros ct _.
  apply (pres_gets_bind _ _ cm); [by intros s [Hcm _] |].
  apply pres_bind; [auto with frame | intros rm].
  apply pres_bind_res. intros ow _.
  apply pres_bind; [| auto with frame]. apply pres_try; [| auto with frame].
  unfold leaf_create. apply pres_bind_res. intros pos _.
  apply pres_bind; [auto with frame | intros lc].
  apply pres_bind.
  - apply pres_issue. intros s Hs. apply leaf_inv_event; [| exact Hs].
    simpl. by exists cd.
  - intros h. apply pres_bind; [| intros _; apply pres_bind; [| auto with frame]].
    + destruct lc; auto with frame.
      apply pres_try; [| auto with frame].
      apply pres_bind; [| auto with frame].
      apply pres_issue. intros s Hs. by apply leaf_inv_event.
    + apply pres_modify. intros s [Hcm Hn]. split; [exact Hcm | exact Hn].
Qed.

(** The call [leaf_item] makes does not depend on [parent_id] beyond the
    category [resolve_parent] finds. *)
Lemma leaf_item_parent api bot t cd p s :
  resolve_parent (cat_map s) (c_parent cd) = resolve_parent (cat_map s) p →
  leaf_item api bot t cd s = leaf_item api bot t (with_parent cd p) s.
Proof.
  intros Hp. unfold leaf_item, mbind, M_bind, of_res, gets. simpl.
  destruct (safe_int (c_type cd) 0) as [ct | e]; [| reflexivity].
  rewrite Hp. reflexivity.
Qed.

(** C6: every leaf creation call of [channels_create] is issued for one of
    the source channels, with the category [resolve_parent] finds in
    [cat_map] as it was when the phase began (the phase never changes
    [cat_map]): the container registered under [parent_id] when
    [parent_id] is set (a falsy id such as [None], [""] or [0] counts as
    unset), no category otherwise.  A parent id missing from [cat_map]
    makes [leaf_item] behave exactly as a channel without parent. *)
Theorem leaf_parent_resolution api bot t chans s :
  (∃ new, trace (snd (channels_create api bot t chans s)) = new ++ trace s ∧
     ∀ k lc n cat ow pos r, (k, CreateLeaf lc n cat ow pos, r) ∈ new →
       ∃ cd, cd ∈ chans ∧ c_id cd = k ∧ c_name cd = n ∧
         cat = resolve_parent (cat_map s) (c_parent cd)) ∧
  (∀ cd s1, cat_map s1 !! c_parent cd = None →
     leaf_item api bot t cd s1 = leaf_item api bot t (with_parent cd KNone) s1).
Proof.
  split.
  - assert (Hp : pres (leaf_inv chans (cat_map s) (trace s)) (channels_create api bot t chans)).
    { unfold channels_create.
      apply pres_bind; [auto with frame | intros _].
      apply pres_bind_res. intros sorted Hsort.
      apply pres_bind; [auto with frame | intros _].
      apply pres_if; [auto with frame |].
      apply pres_for_each. intros cd Hcd. apply leaf_item_pres.
      apply (sort_by_position_elem _ _ _ Hsort) in Hcd.
      by apply list_elem_of_filter in Hcd as [_ Hcd]. }
    destruct (Hp s) as [_ (new & Hn & Hall)].
    { split; [reflexivity |]. exists []. split; [reflexivity | constructor]. }
    exists new. split; [exact Hn |].
    intros k lc n cat ow pos r Hin.
    exact (proj1 (Forall_forall _ _) Hall _ Hin).
  - intros cd s1 Hnone. apply leaf_item_parent.
    unfold resolve_parent. simpl. by destruct (key_truthy (c_parent cd)).
Qed.

(** ** The remapper dicts after a full clone *)

Lemma registry_reads base : reads_maps_trace (registry_inv base).
Proof.
  intros s s' Ht Hr Hc Hch (new & Hn & HR & HC & HCh).
  exists new. rewrite Ht, Hr, Hc, Hch. auto.
Qed.

#[local] Hint Resolve registry_reads : frame.

Lemma registers_role_write c : role_write c = true → registers c = true.
Proof. by destruct c. Qed.

(** Calls that register nothing keep the invariant. *)
Lemma registry_neutral base s s' evs :
  registry_inv base s → Forall (λ e, neutral e = true) evs →
  trace s' = evs ++ trace s → role_map s' = role_map s → cat_map s' = cat_map s →
  chan_map s' = chan_map s → registry_inv base s'.
Proof.
  intros (new & Hn & [Rf Rb] & [Cf Cb] & [Lf Lb]) Hev Ht Hr Hc Hch.
  exists (evs ++ new). rewrite Ht, Hr, Hc, Hch, Hn, app_assoc.
  split; [reflexivity |].
  assert (Hsplit : ∀ ev, ev ∈ evs ++ new → (ev ∈ evs ∧ neutral ev = true) ∨ ev ∈ new).
  { intros ev Hin. apply elem_of_app in Hin as [Hin | Hin]; [| auto].
    left. split; [exact Hin |]. exact (proj1 (Forall_forall _ _) Hev ev Hin). }
  unfold role_registered, cat_registered, chan_registered. split_and!.
  - intros k h Hk. destruct (Rf k h Hk) as [(n & p & col & ho & mn & Hin) | (p & h' & Hin)].
    + left. exists n, p, col, ho, mn. apply elem_of_app. by right.
    + right. exists p, h'. apply elem_of_app. by right.
  - intros k c h Hin Hw. destruct (Hsplit _ Hin) as [[_ Hne] | Hin'].
    + simpl in Hne. by rewrite (registers_role_write c Hw) in Hne.
    + exact (Rb k c h Hin' Hw).
  - intros k h Hk. destruct (Cf k h Hk) as [(n & ow & H1) (pos & h' & H2)].
    split; [exists n, ow | exists pos, h']; apply elem_of_app; by right.
  - intros k h pos h' Hin. destruct (Hsplit _ Hin) as [[_ Hne] | Hin'].
    + discriminate Hne.
    + exact (Cb k h pos h' Hin').
  - intros k h Hk. destruct (Lf k h Hk) as (lc & n & cat & ow & pos & Hin).
    exists lc, n, cat, ow, pos. apply elem_of_app. by right.
  - intros k lc n cat ow pos h Hin. destruct (Hsplit _ Hin) as [[_ Hne] | Hin'].
    + discriminate Hne.
    + exact (Lb k lc n cat ow pos h Hin').
Qed.

Lemma registry_event base s ev :
  registry_inv base s → neutral ev = true → registry_inv base (add_event ev s).
Proof.
  intros Hs Hev. apply (registry_neutral base s _ [ev] Hs); [by constructor | reflexivity ..].
Qed.

(** A role write that succeeded, then its entry. *)
Lemma registry_role base s s' k c h hv :
  registry_inv base s → role_write c = true →
  (match c with
   | CreateRole _ _ _ _ _ => hv = h
   | EditRolePerms d _ => hv = d
   | _ => False
   end) →
  trace s' = (k, c, Ret h) :: trace s → role_map s' = <[k := hv]> (role_map s) →
  cat_map s' = cat_map s → chan_map s' = chan_map s → registry_inv base s'.
Proof.
  intros (new & Hn & [Rf Rb] & [Cf Cb] & [Lf Lb]) Hw Hv Ht Hr Hc Hch.
  exists ((k, c, Ret h) :: new). rewrite Ht, Hr, Hc, Hch, Hn.
  split; [reflexivity |]. unfold role_registered, cat_registered, chan_registered. split_and!.
  - intros k' h' Hk. destruct (decide (k' = k)) as [-> | Hne].
    + rewrite lookup_insert_eq in Hk. injection Hk as <-.
      destruct c; try discriminate; subst.
      * right. do 2 eexists. by left.
      * left. do 5 eexists. by left.
    + rewrite lookup_insert_ne in Hk by congruence.
      destruct (Rf k' h' Hk) as [(n & p & col & ho & mn & Hin) | (p & h'' & Hin)].
      * left. exists n, p, col, ho, mn. by right.
      * right. exists p, h''. by right.
  - intros k' c' h' Hin Hw'. destruct (decide (k' = k)) as [-> | Hne].
    + rewrite lookup_insert_eq. by eexists.
    + rewrite lookup_insert_ne by congruence.
      apply elem_of_cons in Hin as [Heq | Hin]; [congruence |].
      exact (Rb k' c' h' Hin Hw').
  - intros k' h' Hk. destruct (Cf k' h' Hk) as [(n & ow & H1) (pos & h'' & H2)].
    split; [exists n, ow | exists pos, h'']; by right.
  - intros k' h' pos h'' Hin. apply elem_of_cons in Hin as [Heq | Hin].
    + injection Heq as -> <- _. discriminate Hw.
    + exact (Cb k' h' pos h'' Hin).
  - intros k' h' Hk. destruct (Lf k' h' Hk) as (lc & n & cat & ow & pos & Hin).
    exists lc, n, cat, ow, pos. by right.
  - intros k' lc n cat ow pos h' Hin. apply elem_of_cons in Hin as [Heq | Hin].
    + injection Heq as -> <- _. discriminate Hw.
    + exact (Lb k' lc n cat ow pos h' Hin).
Qed.

(** A category created, then repositioned: its entry. *)
Lemma registry_category base s s' k n ow h pos h' :
  registry_inv base s →
  trace s' = (k, EditCategoryPosition h pos, Ret h') :: (k, CreateCategory n ow, Ret h) :: trace s →
  role_map s' = role_map s → cat_map s' = <[k := h]> (cat_map s) →
  chan_map s' = chan_map s → registry_inv base s'.
Proof.
  intros (new & Hn & [Rf Rb] & [Cf Cb] & [Lf Lb]) Ht Hr Hc Hch.
  exists ((k, EditCategoryPosition h pos, Ret h') :: (k, CreateCategory n ow, Ret h) :: new).
  rewrite Ht, Hr, Hc, Hch, Hn. split; [reflexivity |]. unfold role_registered, cat_registered, chan_registered. split_and!.
  - intros k' h'' Hk. destruct (Rf k' h'' Hk) as [(n' & p & col & ho & mn & Hin) | (p & h3 & Hin)].
    + left. exists n', p, col, ho, mn. by right; right.
    + right. exists p, h3. by right; right.
  - intros k' c h'' Hin Hw. do 2 (apply elem_of_cons in Hin as [Heq | Hin];
      [injection Heq as _ Hc' _; rewrite Hc' in Hw; discriminate Hw |]).
    exact (Rb k' c h'' Hin Hw).
  - intros k' h'' Hk. destruct (decide (k' = k)) as [-> | Hne].
    + rewrite lookup_insert_eq in Hk. injection Hk as <-.
      split; [exists n, ow; by right; left | exists pos, h'; by left].
    + rewrite lookup_insert_ne in Hk by congruence.
      destruct (Cf k' h'' Hk) as [(n' & ow' & H1) (pos' & h3 & H2)].
      split; [exists n', ow' | exists pos', h3]; by right; right.
  - intros k' h'' pos' h3 Hin. destruct (decide (k' = k)) as [-> | Hne].
    + rewrite lookup_insert_eq. by eexists.
    + rewrite lookup_insert_ne by congruence.
      do 2 (apply elem_of_cons in Hin as [Heq | Hin]; [congruence |]).
      exact (Cb k' h'' pos' h3 Hin).
  - intros k' h'' Hk. destruct (Lf k' h'' Hk) as (lc & n' & cat & ow' & pos' & Hin).
    exists lc, n', cat, ow', pos'. by right; right.
  - intros k' lc n' cat ow' pos' h'' Hin.
    do 2 (apply elem_of_cons in Hin as [Heq | Hin]; [discriminate Heq |]).
    exact (Lb k' lc n' cat ow' pos' h'' Hin).
Qed.

(** A leaf created, then possibly converted to news: its entry. *)
Lemma registry_leaf base s s' evs k lc n cat ow pos h :
  registry_inv base s → Forall (λ e, neutral e = true) evs →
  trace s' = evs ++ (k, CreateLeaf lc n cat ow pos, Ret h) :: trace s →
  role_map s' = role_map s → cat_map s' = cat_map s →
  chan_map s' = <[k := h]> (chan_map s) → registry_inv base s'.
Proof.
  intros (new & Hn & [Rf Rb] & [Cf Cb] & [Lf Lb]) Hev Ht Hr Hc Hch.
  exists (evs ++ (k, CreateLeaf lc n cat ow pos, Ret h) :: new).
  rewrite Ht, Hr, Hc, Hch, Hn, <- app_assoc. split; [reflexivity |].
  assert (Hsplit : ∀ ev, ev ∈ evs ++ (k, CreateLeaf lc n cat ow pos, Ret h) :: new →
            (neutral ev = true) ∨ ev = (k, CreateLeaf lc n cat ow pos, Ret h) ∨ ev ∈ new).
  { intros ev Hin. apply elem_of_app in Hin as [Hin | Hin].
    - left. exact (proj1 (Forall_forall _ _) Hev ev Hin).
    - apply elem_of_cons in Hin as [-> | Hin]; auto. }
  assert (Hold : ∀ ev, ev ∈ new → ev ∈ evs ++ (k, CreateLeaf lc n cat ow pos, Ret h) :: new).
  { intros ev Hin. apply elem_of_app. right. by right. }
  unfold role_registered, cat_registered, chan_registered. split_and!.
  - intros k' h' Hk. destruct (Rf k' h' Hk) as [(n' & p & col & ho & mn & Hin) | (p & h'' & Hin)].
    + left. exists n', p, col, ho, mn. by apply Hold.
    + right. exists p, h''. by apply Hold.
  - intros k' c h' Hin Hw. destruct (Hsplit _ Hin) as [Hne | [Heq | Hin']].
    + simpl in Hne. by rewrite (registers_role_write c Hw) in Hne.
    + injection Heq as _ Hc' _. rewrite Hc' in Hw. discriminate Hw.
    + exact (Rb k' c h' Hin' Hw).
  - intros k' h' Hk. destruct (Cf k' h' Hk) as [(n' & ow' & H1) (pos' & h'' & H2)].
    split; [exists n', ow' | exists pos', h'']; by apply Hold.
  - intros k' h' pos' h'' Hin. destruct (Hsplit _ Hin) as [Hne | [Heq | Hin']].
    + discriminate Hne.
    + discriminate Heq.
    + exact (Cb k' h' pos' h'' Hin').
  - intros k' h' Hk. destruct (decide (k' = k)) as [-> | Hne].
    + rewrite lookup_insert_eq in Hk. injection Hk as <-.
      exists lc, n, cat, ow, pos. apply elem_of_app. right. by left.
    + rewrite lookup_insert_ne in Hk by congruence.
      destruct (Lf k' h' Hk) as (lc' & n' & cat' & ow' & pos' & Hin).
      exists lc', n', cat', ow', pos'. by apply Hold.
  - intros k' lc' n' cat' ow' pos' h' Hin. destruct (decide (k' = k)) as [-> | Hne].
    + rewrite lookup_insert_eq. by eexists.
    + rewrite lookup_insert_ne by congruence.
      destruct (Hsplit _ Hin) as [Hne' | [Heq | Hin']].
      * discriminate Hne'.
      * congruence.
      * exact (Lb k' lc' n' cat' ow' pos' h' Hin').
Qed.

Section Registry.

Variable api : list event → call → pyres handle.
Variable fetch : string → pyres Z.
Variable bot : cfg.
Variable base : list event.



Lemma pres_issue_neutral tag c : registers c = false → pres (registry_inv base) (issue api tag c).
Proof.
  intros Hc. apply pres_issue. intros s Hs. apply registry_event; [exact Hs |].
  destruct (api (trace s) c); simpl; [by rewrite Hc | reflexivity].
Qed.

Lemma pres_raw_input : pres (registry_inv base) (raw_input).
Proof.
  intros s Hs. unfold raw_input. destruct (inputs s); simpl; [exact Hs |].
  revert Hs. apply registry_reads; reflexivity.
Qed.

Lemma delete_item_pres (mk : handle → call) what h :
  registers (mk h) = false → pres (registry_inv base) (delete_item api mk what h).
Proof.
  intros Hmk. unfold delete_item.
  apply pres_bind; [| auto with frame]. apply pres_try; [| auto with frame].
  apply pres_bind; [by apply pres_issue_neutral | auto with frame].
Qed.

Lemma roles_delete_pres t : pres (registry_inv base) (roles_delete api t).
Proof.
  unfold roles_delete. apply pres_bind; [auto with frame | intros _].
  apply pres_bind; [auto with frame | intros _].
  apply pres_for_each. intros h _. by apply delete_item_pres.
Qed.

Lemma channels_delete_pres t : pres (registry_inv base) (channels_delete api t).
Proof.
  unfold channels_delete. apply pres_bind; [auto with frame | intros _].
  apply pres_bind; [auto with frame | intros _].
  apply pres_for_each. intros h _. by apply delete_item_pres.
Qed.

Lemma emojis_delete_pres t : pres (registry_inv base) (emojis_delete api t).
Proof.
  unfold emojis_delete. apply pres_bind; [auto with frame | intros _].
  apply pres_bind; [auto with frame | intros _].
  apply pres_if; [auto with frame |].
  apply pres_for_each. intros h _. by apply delete_item_pres.
Qed.

Lemma guild_edit_pres t gd : pres (registry_inv base) (guild_edit api fetch t gd).
Proof.
  unfold guild_edit. apply pres_bind; [auto with frame | intros _].
  apply pres_try; [| auto with frame].
  apply pres_bind; [by apply pres_issue_neutral | intros _].
  apply pres_bind; [auto with frame | intros _].
  apply pres_if; [| auto with frame].
  apply pres_try; [| auto with frame].
  apply pres_bind_res. intros status _.
  apply pres_if; [| auto with frame].
  apply pres_bind; [by apply pres_issue_neutral | auto with frame].
Qed.

Lemma everyone_edit_pres t rd : pres (registry_inv base) (everyone_edit api t rd).
Proof.
  unfold everyone_edit. apply pres_bind_res. intros perms _.
  intros s Hs. unfold mbind, M_bind, issue, modify, log_add. simpl.
  destruct (api (trace s) (EditRolePerms (t_default_role t) perms)) as [h | e]; simpl.
  - eapply (registry_role base s _ (r_id rd) (EditRolePerms (t_default_role t) perms) h);
      [exact Hs | reflexivity .. ].
  - apply (registry_neutral base s _ [(r_id rd, EditRolePerms (t_default_role t) perms, Raise e)] Hs);
      [by constructor | reflexivity ..].
Qed.

Lemma role_create_pres rd : pres (registry_inv base) (role_create api rd).
Proof.
  unfold role_create. apply pres_bind_res. intros perms _.
  apply pres_bind_res. intros color _.
  intros s Hs. unfold mbind, M_bind, issue, modify, log_add. simpl.
  set (c := CreateRole (r_name rd) perms color (boolish (r_hoist rd)) (boolish (r_mentionable rd))).
  destruct (api (trace s) c) as [h | e]; simpl.
  - eapply (registry_role base s _ (r_id rd) c h h); [exact Hs | reflexivity .. ].
  - apply (registry_neutral base s _ [(r_id rd, c, Raise e)] Hs);
      [by constructor | reflexivity ..].
Qed.

Lemma roles_create_pres t rds : pres (registry_inv base) (roles_create api t rds).
Proof.
  unfold roles_create. apply pres_bind; [auto with frame | intros _].
  apply pres_bind; [auto with frame | intros _].
  apply pres_bind_res. intros sorted _.
  apply pres_bind.
  - apply pres_for_each. intros rd _. unfold role_item.
    apply pres_bind; [| auto with frame].
    apply pres_if; (apply pres_try; [| auto with frame]);
      [apply everyone_edit_pres | apply role_create_pres].
  - intros _. unfold reorder_roles. apply pres_bind; [auto with frame | intros _].
    apply pres_for_each. intros rd _. unfold reorder_item.
    apply pres_bind; [auto with frame | intros rm].
    destruct (rm !! r_id rd) as [h |]; [| auto with frame].
    apply pres_if; [auto with frame |].
    apply pres_try; [| auto with frame].
    apply pres_bind_res. intros pos _.
    apply pres_bind; [by apply pres_issue_neutral | auto with frame].
Qed.

Lemma category_create_pres t cd : pres (registry_inv base) (category_create api bot t cd).
Proof.
  unfold category_create. apply pres_bind; [auto with frame | intros rm].
  apply pres_bind_res. intros ow _.
  intros s Hs. unfold mbind, M_bind, issue, modify, log_add, of_res. simpl.
  destruct (api (trace s) (CreateCategory (c_name cd) ow)) as [h | e]; simpl.
  - destruct (safe_int (c_position cd) 0) as [pos | e]; simpl.
    + destruct (api _ (EditCategoryPosition h pos)) as [h' | e]; simpl.
      * eapply (registry_category base s _ (c_id cd) (c_name cd) ow h pos h');
          [exact Hs | reflexivity .. ].
      * apply (registry_neutral base s _
                 [(c_id cd, EditCategoryPosition h pos, Raise e);
                  (c_id cd, CreateCategory (c_name cd) ow, Ret h)] Hs);
          [repeat constructor | reflexivity ..].
    + apply (registry_neutral base s _ [(c_id cd, CreateCategory (c_name cd) ow, Ret h)] Hs);
        [repeat constructor | reflexivity ..].
  - apply (registry_neutral base s _ [(c_id cd, CreateCategory (c_name cd) ow, Raise e)] Hs);
      [by constructor | reflexivity ..].
Qed.

Lemma categories_create_pres t chans : pres (registry_inv base) (categories_create api bot t chans).
Proof.
  unfold categories_create. apply pres_bind; [auto with frame | intros _].
  apply pres_bind_res. intros sorted _.
  apply pres_bind; [auto with frame | intros _].
  apply pres_if; [auto with frame |].
  apply pres_for_each. intros cd _. unfold category_item.
  apply pres_bind; [| auto with frame].
  apply pres_try; [apply category_create_pres | auto with frame].
Qed.

Lemma leaf_create_pres cd ct category ow : pres (registry_inv base) (leaf_create api cd ct category ow).
Proof.
  unfold leaf_create. apply pres_bind_res. intros pos _.
  apply pres_bind; [auto with frame | intros lc].
  intros s Hs. unfold mbind, M_bind, issue, modify, log_add. simpl.
  set (c := CreateLeaf lc (c_name cd) category ow pos).
  destruct (api (trace s) c) as [h | e]; simpl.
  - destruct lc; simpl;
      try (eapply (registry_leaf base s _ [] (c_id cd)); [exact Hs | constructor | reflexivity ..]).
    unfold try_except. simpl.
    destruct (api _ (EditNewsType h)) as [h' | e]; simpl.
    + eapply (registry_leaf base s _ [(c_id cd, EditNewsType h, Ret h')] (c_id cd));
        [exact Hs | repeat constructor | reflexivity ..].
    + eapply (registry_leaf base s _ [(c_id cd, EditNewsType h, Raise e)] (c_id cd));
        [exact Hs | repeat constructor | reflexivity ..].
  - apply (registry_neutral base s _ [(c_id cd, c, Raise e)] Hs);
      [by constructor | reflexivity ..].
Qed.

Lemma channels_create_pres t chans : pres (registry_inv base) (channels_create api bot t chans).
Proof.
  unfold channels_create. apply pres_bind; [auto with frame | intros _].
  apply pres_bind_res. intros sorted _.
  apply pres_bind; [auto with frame | intros _].
  apply pres_if; [auto with frame |].
  apply pres_for_each. intros cd _. unfold leaf_item.
  apply pres_bind_res. intros ct _.
  apply pres_bind; [auto with frame | intros cm].
  apply pres_bind; [auto with frame | intros rm].
  apply pres_bind_res. intros ow _.
  apply pres_bind; [| auto with frame].
  apply pres_try; [apply leaf_create_pres | auto with frame].
Qed.

Lemma emojis_create_pres eds : pres (registry_inv base) (emojis_create api fetch eds).
Proof.
  unfold emojis_create. apply pres_bind; [auto with frame | intros _].
  apply pres_bind; [auto with frame | intros _].
  apply pres_if; [auto with frame |].
  apply pres_for_each. intros ed _. unfold emoji_item.
  apply pres_if; (apply pres_bind; [| auto with frame]); [auto with frame |].
  apply pres_try; [| auto with frame].
  unfold emoji_create. apply pres_bind_res. intros status _.
  apply pres_if; [| auto with frame].
  apply pres_bind; [by apply pres_issue_neutral | auto with frame].
Qed.

End Registry.

#[local] Hint Resolve guild_edit_pres emojis_delete_pres channels_delete_pres
  roles_delete_pres roles_create_pres categories_create_pres channels_create_pres
  emojis_create_pres pres_raw_input : frame.

Lemma registry_inv_reset s : registry_inv (trace s) (reset_maps s).
Proof.
  exists []. split; [reflexivity |].
  unfold role_registered, cat_registered, chan_registered. simpl.
  split_and!; intros *; rewrite ?lookup_empty; try discriminate;
    intros Hin; by apply elem_of_nil in Hin.
Qed.

Lemma full_clone_phases_registry api fetch bot t src g s :
  registry_inv (trace s) (snd (full_clone_phases api fetch bot t src g s)).
Proof.
  unfold full_clone_phases. unfold mbind at 1, M_bind at 1, modify at 1. simpl.
  assert (Hp : pres (registry_inv (trace s))
     (reset_stats;; guild_edit api fetch t g;;
      reset_stats;; emojis_delete api t;;
      reset_stats;; channels_delete api t;;
      reset_stats;; roles_delete api t;;
      reset_stats;; roles_create api t (src_roles src);;
      reset_stats;; categories_create api bot t (src_channels src);;
      reset_stats;; channels_create api bot t (src_channels src);;
      reset_stats;; emojis_create api fetch (src_emojis src);;
      _ ← raw_input ; mret tt)).
  { repeat (apply pres_bind; [auto with frame | intros ?]). auto with frame. }
  apply Hp. apply registry_inv_reset.
Qed.

(** The confirmation prompt, run. *)
Lemma gate_run (word : string) (k : M unit) s :
  (answer ← get_input ; if String.eqb answer word then k else mret tt) s =
  match inputs s with
  | [] => (Raise OtherError, s)
  | l :: r => if String.eqb (py_strip l) word then k (set_inputs r s) else (Ret tt, set_inputs r s)
  end.
Proof.
  unfold mbind, M_bind, get_input. cbv beta.
  destruct (inputs s) as [| l r]; [reflexivity |]. by destruct (String.eqb (py_strip l) word).
Qed.

(** C1, at a failing input: on an API where only the position edit of a
    category fails, the category ["100"] of the source is created on the
    target (the call succeeds), yet [categories_create] leaves it out of
    [cat_map], because the position edit and the [cat_map] assignment
    share the creation's [try] block; its leaf ["101"] is then created
    with no parent. *)
Lemma category_created_but_unregistered :
  let s' := snd (do_full_clone api_position_fails fetch_404 sample_bot
                   (sample_state ["clone"; ""])) in
  c_parent sample_leaf = c_id sample_category ∧
  nth_error (trace s') 2 = Some (KStr "100", CreateCategory "cat" [], Ret (mkhandle 105 "x")) ∧
  nth_error (trace s') 1 = Some (KStr "100", EditCategoryPosition (mkhandle 105 "x") 0, Raise HTTPError) ∧
  cat_map s' !! KStr "100" = None ∧
  nth_error (trace s') 0 =
    Some (KStr "101", CreateLeaf (TextCall PNone 0 false) "gen" None
            [(mkhandle 1 "@everyone", (1024, 0))] 1, Ret (mkhandle 107 "x")).
Proof. split_and!; vm_compute; reflexivity. Qed.

(** ** Failures inside the item loops *)

Lemma safe_int_finite v d : finite_val v = true → ∃ z, safe_int v d = Ret z.
Proof.
  intros Hf. apply safe_int_total_on_finite.
  - intros sg ->. discriminate Hf.
  - intros ->. discriminate Hf.
Qed.

Lemma count_failed_app a b : count_failed (a ++ b) = (count_failed a + count_failed b)%nat.
Proof.
  unfold count_failed. induction a as [| ev r IH]; simpl; [reflexivity |].
  destruct (counted_failure ev); simpl; lia.
Qed.

Lemma bind_ret {A B} (m : M A) (k : A → M B) s a s' :
  m s = (Ret a, s') → (x ← m ; k x) s = k a s'.
Proof. intros Hm. unfold mbind, M_bind. by rewrite Hm. Qed.

Lemma keyed_finite {A} (f : A → pyval) l :
  (∀ x, x ∈ l → finite_val (f x) = true) → ∃ kl, keyed f l = Ret kl.
Proof.
  induction l as [| x r IH]; simpl; intros Hf; [by eexists |].
  destruct (safe_int_finite (f x) 0) as [z Hz]; [apply Hf; by left |]. rewrite Hz.
  destruct IH as [kr Hr]; [intros y Hy; apply Hf; by right |]. rewrite Hr. by eexists.
Qed.

Lemma insert_keyed_length {A} (p : Z * A) l : length (insert_keyed p l) = S (length l).
Proof. induction l as [| q r IH]; simpl; [reflexivity |]. destruct (p.1 <? q.1); simpl; lia. Qed.

Lemma fold_insert_length {A} (kl acc : list (Z * A)) :
  length (fold_left (λ acc p, insert_keyed p acc) kl acc) = (length kl + length acc)%nat.
Proof.
  revert acc. induction kl as [| p r IH]; simpl; intros acc; [reflexivity |].
  rewrite IH, insert_keyed_length. lia.
Qed.

Lemma sort_by_position_finite {A} (f : A → pyval) l :
  (∀ x, x ∈ l → finite_val (f x) = true) →
  ∃ l', sort_by_position f l = Ret l' ∧ length l' = length l.
Proof.
  intros Hf. destruct (keyed_finite f l Hf) as [kl Hk].
  unfold sort_by_position. rewrite Hk. eexists. split; [reflexivity |].
  rewrite length_map, fold_insert_length, <- (keyed_snd f l kl Hk), length_map. simpl. lia.
Qed.

Lemma parse_ows_finite rm src dflt ows acc :
  Forall (λ ow, ow_finite ow = true) ows → ∃ out, parse_ows rm src dflt ows acc = Ret out.
Proof.
  revert acc. induction ows as [| ow r IH]; simpl; intros acc Hf; [by eexists |].
  apply Forall_cons in Hf as [Hf Hr]. unfold ow_finite in Hf.
  apply andb_true_iff in Hf as [Hf Hd]. apply andb_true_iff in Hf as [Hi Ha].
  destruct (safe_int_finite _ 0 Hi) as [sid ->].
  destruct (safe_int_finite _ 0 Ha) as [a ->].
  destruct (safe_int_finite _ 0 Hd) as [d ->].
  by apply IH.
Qed.

Lemma forallb_Forall {A} (f : A → bool) l : forallb f l = true → Forall (λ x, f x = true) l.
Proof.
  induction l as [| x r IH]; simpl; [constructor |].
  intros H. apply andb_true_iff in H as [Hx Hr]. constructor; auto.
Qed.

Lemma chan_finite_fields cd :
  chan_finite cd = true →
  finite_val (c_type cd) = true ∧ finite_val (c_position cd) = true ∧
  finite_val (c_rate_limit cd) = true ∧ finite_val (c_bitrate cd) = true ∧
  finite_val (c_user_limit cd) = true ∧ Forall (λ ow, ow_finite ow = true) (c_overwrites cd).
Proof.
  unfold chan_finite. intros Hf.
  apply andb_true_iff in Hf as [Hf Hows]. apply andb_true_iff in Hf as [Hf Hul].
  apply andb_true_iff in Hf as [Hf Hbr]. apply andb_true_iff in Hf as [Hf Hrl].
  apply andb_true_iff in Hf as [Hty Hpos].
  split_and!; try assumption. by apply forallb_Forall.
Qed.

(** Unfold the monad and the [Clone] helpers. *)
Ltac run_m :=
  unfold mbind, M_bind, of_res, gets, modify, issue, try_except, log_add, log_delete,
    log_error, incr_completed, set_op, set_total, mret, M_ret, throw in *; simpl in *.

Section Loops.

Variable api : list event → call → pyres handle.
Variable fetch : string → pyres Z.
Variable bot : cfg.
Hypothesis Hapi : api_http_only api.

Lemma for_each_report {A} (l : list A) (body : A → M unit) exact s :
  (∀ x, x ∈ l → item_report (body x) exact) →
  phase_report (for_each l body) (completed s + length l) exact s.
Proof.
  revert s. induction l as [| x r IH]; simpl; intros s Hb.
  - exists s. split; [reflexivity |]. split; [lia |].
    exists [], 0%nat. simpl. split; [reflexivity |]. unfold count_failed. simpl. split; [lia | intros _; reflexivity].
  - destruct (Hb x ltac:(by left) s) as (s1 & H1 & Hc1 & new1 & x1 & Ht1 & He1 & Hx1).
    destruct (IH s1) as (s2 & H2 & Hc2 & new2 & x2 & Ht2 & He2 & Hx2).
    { intros y Hy. apply Hb. by right. }
    exists s2. rewrite (bind_ret _ _ _ _ _ H1). split; [exact H2 |]. split; [lia |].
    exists (new2 ++ new1), (x1 + x2)%nat. rewrite Ht2, Ht1, app_assoc.
    split; [reflexivity |]. rewrite count_failed_app. split; [lia |].
    intros He. rewrite (Hx1 He), (Hx2 He). reflexivity.
Qed.

Lemma delete_item_report (mk : handle → call) what h :
  (∀ k e, counted_failure (k, mk h, Raise e) = true) →
  item_report (delete_item api mk what h) true.
Proof.
  intros Hmk s. unfold phase_report, delete_item. run_m.
  destruct (api (trace s) (mk h)) as [h' | e] eqn:E; simpl.
  - eexists. split; [reflexivity |]. split; [reflexivity |].
    exists [(KNone, mk h, Ret h')], 0%nat. simpl. split; [reflexivity |].
    unfold count_failed. simpl. split; [lia | intros _; reflexivity].
  - rewrite (Hapi _ _ _ E). simpl.
    eexists. split; [reflexivity |]. split; [reflexivity |].
    exists [(KNone, mk h, Raise e)], 0%nat. simpl. split; [reflexivity |].
    pose proof (Hmk KNone e) as Hm. unfold count_failed. simpl in *. rewrite Hm. simpl.
    split; [lia | intros _; reflexivity].
Qed.

Tactic Notation "finish_report" uconstr(evs) :=
  eexists; split; [reflexivity |]; split; [reflexivity |];
  exists evs, 0%nat; split; [reflexivity |];
  unfold count_failed; simpl; split; [lia | intros _; reflexivity].

Lemma role_item_report t rd : role_finite rd = true → item_report (role_item api t rd) true.
Proof.
  intros Hf s. unfold role_finite in Hf.
  apply andb_true_iff in Hf as [Hf _]. apply andb_true_iff in Hf as [Hp Hc].
  destruct (safe_int_finite _ 0 Hp) as [p Ep]. destruct (safe_int_finite _ 0 Hc) as [c Ec].
  unfold phase_report, role_item, everyone_edit, role_create. run_m. rewrite ?Ep, ?Ec. simpl.
  destruct (String.eqb (r_name rd) "@everyone"); simpl.
  - destruct (api _ (EditRolePerms _ p)) as [h | e]; simpl.
    + finish_report [(r_id rd, EditRolePerms (t_default_role t) p, Ret h)].
    + finish_report [(r_id rd, EditRolePerms (t_default_role t) p, Raise e)].
  - destruct (api _ (CreateRole _ p c _ _)) as [h | e]; simpl.
    + finish_report [(r_id rd, CreateRole (r_name rd) p c (boolish (r_hoist rd))
                                   (boolish (r_mentionable rd)), Ret h)].
    + finish_report [(r_id rd, CreateRole (r_name rd) p c (boolish (r_hoist rd))
                                   (boolish (r_mentionable rd)), Raise e)].
Qed.

(** [reorder_roles] swallows every failure: it counts no error and no
    item. *)
Lemma reorder_item_quiet rd s :
  ∃ s', reorder_item api rd s = (Ret tt, s') ∧ completed s' = completed s ∧
    errors s' = errors s ∧ ∃ new, trace s' = new ++ trace s ∧ count_failed new = 0%nat.
Proof.
  unfold reorder_item. run_m.
  destruct (role_map s !! r_id rd) as [h |]; simpl.
  2: { eexists. split; [reflexivity |]. split_and!; [reflexivity .. |]. by exists []. }
  destruct (String.eqb (hname h) "@everyone"); simpl.
  { eexists. split; [reflexivity |]. split_and!; [reflexivity .. |]. by exists []. }
  destruct (safe_int (r_position rd) 0) as [pos | e]; simpl.
  - destruct (api _ (EditRolePosition h pos)) as [h' | e]; simpl;
      (eexists; split; [reflexivity |]; split_and!; [reflexivity .. |]).
    + by exists [(r_id rd, EditRolePosition h pos, Ret h')].
    + by exists [(r_id rd, EditRolePosition h pos, Raise e)].
  - eexists. split; [reflexivity |]. split_and!; [reflexivity .. |]. by exists [].
Qed.

Lemma reorder_loop_quiet rds s :
  ∃ s', for_each rds (reorder_item api) s = (Ret tt, s') ∧ completed s' = completed s ∧
    errors s' = errors s ∧ ∃ new, trace s' = new ++ trace s ∧ count_failed new = 0%nat.
Proof.
  revert s. induction rds as [| rd r IH]; simpl; intros s.
  - exists s. split; [reflexivity |]. split_and!; [reflexivity .. |]. by exists [].
  - destruct (reorder_item_quiet rd s) as (s1 & H1 & Hc1 & He1 & new1 & Ht1 & Hn1).
    destruct (IH s1) as (s2 & H2 & Hc2 & He2 & new2 & Ht2 & Hn2).
    exists s2. rewrite (bind_ret _ _ _ _ _ H1). split; [exact H2 |].
    split_and!; [congruence | congruence |].
    exists (new2 ++ new1). rewrite Ht2, Ht1, app_assoc. split; [reflexivity |].
    rewrite count_failed_app. lia.
Qed.

Lemma category_item_report t cd : chan_finite cd = true → item_report (category_item api bot t cd) true.
Proof.
  intros Hf s. destruct (chan_finite_fields cd Hf) as (_ & Hpos & _ & _ & _ & Hows).
  destruct (safe_int_finite (c_position cd) 0 Hpos) as [pos Epos].
  destruct (parse_ows_finite (role_map s) (source_id bot) (t_default_role t) (c_overwrites cd) []
              Hows) as [ow Eow].
  unfold phase_report, category_item, category_create, parse_permission_overwrites. run_m.
  rewrite Eow. simpl.
  destruct (api _ (CreateCategory _ ow)) as [h | e] eqn:E1; simpl.
  - rewrite Epos. simpl.
    destruct (api _ (EditCategoryPosition h pos)) as [h' | e] eqn:E2; simpl.
    + finish_report [(c_id cd, EditCategoryPosition h pos, Ret h');
                     (c_id cd, CreateCategory (c_name cd) ow, Ret h)].
    + rewrite (Hapi _ _ _ E2). simpl.
      finish_report [(c_id cd, EditCategoryPosition h pos, Raise e);
                     (c_id cd, CreateCategory (c_name cd) ow, Ret h)].
  - rewrite (Hapi _ _ _ E1). simpl.
    finish_report [(c_id cd, CreateCategory (c_name cd) ow, Raise e)].
Qed.

Lemma leaf_call_of_finite ct cd :
  chan_finite cd = true → ∃ lc, ∀ s, leaf_call_of ct cd s = (Ret lc, s).
Proof.
  intros Hf. destruct (chan_finite_fields cd Hf) as (_ & _ & Hrl & Hbr & Hul & _).
  destruct (safe_int_finite _ 0 Hrl) as [slow Es].
  destruct (safe_int_finite _ 64000 Hbr) as [br Eb].
  destruct (safe_int_finite _ 0 Hul) as [ul Eu].
  unfold leaf_call_of. run_m. rewrite Es, Eb, Eu. simpl.
  destruct (ct =? 0); [by eexists |]. destruct (ct =? 2); [by eexists |].
  destruct (ct =? 5); [by eexists |]. destruct (ct =? 13); [by eexists |].
  destruct (ct =? 15); by eexists.
Qed.

Lemma leaf_item_report t cd : chan_finite cd = true → item_report (leaf_item api bot t cd) true.
Proof.
  intros Hf s. destruct (chan_finite_fields cd Hf) as (Hty & Hpos & _ & _ & _ & Hows).
  destruct (safe_int_finite _ 0 Hty) as [ct Ect].
  destruct (safe_int_finite _ 0 Hpos) as [pos Epos].
  destruct (parse_ows_finite (role_map s) (source_id bot) (t_default_role t) (c_overwrites cd) []
              Hows) as [ow Eow].
  destruct (leaf_call_of_finite ct cd Hf) as [lc Elc].
  unfold phase_report, leaf_item, leaf_create, parse_permission_overwrites. run_m.
  rewrite Ect. simpl. rewrite Eow. simpl. rewrite Epos. simpl. rewrite Elc. simpl.
  set (cat := resolve_parent (cat_map s) (c_parent cd)).
  destruct (api _ (CreateLeaf lc _ cat ow pos)) as [h | e]; simpl.
  - set (ev := (c_id cd, CreateLeaf lc (c_name cd) cat ow pos, Ret h)).
    destruct lc; simpl; try finish_report [ev].
    destruct (api _ (EditNewsType h)) as [h' | e]; simpl.
    + finish_report [(c_id cd, EditNewsType h, Ret h');
                     (c_id cd, CreateLeaf (NewsCall topic) (c_name cd) cat ow pos, Ret h)].
    + finish_report [(c_id cd, EditNewsType h, Raise e);
                     (c_id cd, CreateLeaf (NewsCall topic) (c_name cd) cat ow pos, Ret h)].
  - finish_report [(c_id cd, CreateLeaf lc (c_name cd) cat ow pos, Raise e)].
Qed.

Tactic Notation "finish_report" uconstr(evs) "extra" constr(n) :=
  eexists; split; [reflexivity |]; split; [reflexivity |];
  exists evs, n; split; [reflexivity |];
  unfold count_failed; simpl; split; [lia | intros Hx; discriminate Hx].

Lemma emoji_item_report ed : item_report (emoji_item api fetch ed) false.
Proof.
  intros s. unfold phase_report, emoji_item, emoji_create. run_m.
  destruct (negb (key_truthy (e_id ed))); simpl; [finish_report [] extra 1%nat |].
  destruct (fetch (emoji_url ed)) as [status | e]; simpl; [| finish_report [] extra 1%nat].
  destruct (status =? 200); simpl; [| finish_report [] extra 1%nat].
  destruct (api _ (CreateEmoji (e_name ed) (emoji_url ed))) as [h | e]; simpl.
  - finish_report [(e_id ed, CreateEmoji (e_name ed) (emoji_url ed), Ret h)] extra 0%nat.
  - finish_report [(e_id ed, CreateEmoji (e_name ed) (emoji_url ed), Raise e)] extra 0%nat.
Qed.

(** Steps before the loop that leave the issued calls and the error
    count alone. *)
Lemma report_after_setup {A} (m : M A) (k : A → M unit) n exact s s1 a :
  m s = (Ret a, s1) → trace s1 = trace s → errors s1 = errors s →
  phase_report (k a) n exact s1 → phase_report (x ← m ; k x) n exact s.
Proof.
  intros Hm Ht He (s2 & H2 & Hc & new & x & Ht2 & He2 & Hx).
  exists s2. rewrite (bind_ret _ _ _ _ _ Hm). split; [exact H2 |]. split; [exact Hc |].
  exists new, x. rewrite Ht2, Ht, He2, He. auto.
Qed.

(** A step after the loop that counts nothing. *)
Lemma report_then_quiet (m : M unit) (k : M unit) n exact s :
  phase_report m n exact s →
  (∀ s1, ∃ s2, k s1 = (Ret tt, s2) ∧ completed s2 = completed s1 ∧ errors s2 = errors s1 ∧
     ∃ new, trace s2 = new ++ trace s1 ∧ count_failed new = 0%nat) →
  phase_report (m ;; k) n exact s.
Proof.
  intros (s1 & H1 & Hc1 & new1 & x & Ht1 & He1 & Hx) Hk.
  destruct (Hk s1) as (s2 & H2 & Hc2 & He2 & new2 & Ht2 & Hn2).
  exists s2. rewrite (bind_ret _ _ _ _ _ H1). split; [exact H2 |]. split; [congruence |].
  exists (new2 ++ new1), x. rewrite Ht2, Ht1, app_assoc. split; [reflexivity |].
  rewrite count_failed_app. split; [lia | exact Hx].
Qed.

Lemma report_empty n exact s :
  completed s = n → phase_report (mret tt) n exact s.
Proof.
  intros Hc. exists s. split; [reflexivity |]. split; [exact Hc |].
  exists [], 0%nat. split; [reflexivity |]. unfold count_failed. simpl.
  split; [lia | intros _; reflexivity].
Qed.

Ltac setup_step := eapply report_after_setup; [reflexivity | reflexivity | reflexivity |].

Lemma loop_report {A} (l : list A) (body : A → M unit) exact s :
  completed s = 0%nat → (∀ x, x ∈ l → item_report (body x) exact) →
  phase_report (for_each l body) (length l) exact s.
Proof. intros H0 Hb. pose proof (for_each_report l body exact s Hb) as H. by rewrite H0 in H. Qed.

Lemma roles_delete_report t s : phase_report (roles_delete api t)
  (length (filter (λ r, negb (String.eqb (hname r) "@everyone")) (t_roles t))) true s.
Proof.
  unfold roles_delete. setup_step. setup_step.
  apply loop_report; [reflexivity |]. intros h _. by apply delete_item_report.
Qed.

Lemma channels_delete_report t s : phase_report (channels_delete api t) (length (t_channels t)) true s.
Proof.
  unfold channels_delete. setup_step. setup_step.
  apply loop_report; [reflexivity |]. intros h _. by apply delete_item_report.
Qed.

Lemma emojis_delete_report t s : phase_report (emojis_delete api t) (length (t_emojis t)) true s.
Proof.
  unfold emojis_delete. setup_step. setup_step.
  case_bool_decide as Hl; [apply report_empty; simpl; lia |].
  apply loop_report; [reflexivity |]. intros h _. by apply delete_item_report.
Qed.

Lemma roles_create_report t rds s :
  Forall (λ rd, role_finite rd = true) rds →
  phase_report (roles_create api t rds) (length rds) true s.
Proof.
  intros Hf. rewrite Forall_forall in Hf.
  destruct (sort_by_position_finite r_position rds) as (sorted & Hs & Hlen).
  { intros rd Hrd. specialize (Hf rd Hrd). unfold role_finite in Hf.
    by apply andb_true_iff in Hf as [_ Hf]. }
  unfold roles_create. setup_step. setup_step.
  eapply report_after_setup; [unfold of_res; rewrite Hs; reflexivity | reflexivity .. |].
  apply report_then_quiet.
  - rewrite <- Hlen. apply loop_report; [reflexivity |].
    intros rd Hrd. apply role_item_report, Hf. exact (sort_by_position_elem _ _ _ Hs rd Hrd).
  - intros s1. unfold reorder_roles, set_op, modify.
    destruct (reorder_loop_quiet sorted
                (set_stats "Reordering Roles" (completed s1) (total s1) (errors s1) s1))
      as (s2 & H2 & Hc2 & He2 & new & Ht2 & Hn).
    exists s2. rewrite (bind_ret _ _ _ _ _ (eq_refl : (λ s, (Ret tt, _)) s1 = _)).
    split; [exact H2 |]. rewrite Hc2, He2, Ht2. split_and!; [reflexivity .. |].
    by exists new.
Qed.

Lemma categories_create_report t chans s :
  api_http_only api → Forall (λ cd, chan_finite cd = true) chans →
  phase_report (categories_create api bot t chans) (length (filter is_category chans)) true s.
Proof.
  intros _ Hf. rewrite Forall_forall in Hf.
  destruct (sort_by_position_finite c_position (filter is_category chans)) as (sorted & Hs & Hlen).
  { intros cd Hcd. apply list_elem_of_filter in Hcd as [_ Hcd].
    exact (proj1 (proj2 (chan_finite_fields cd (Hf cd Hcd)))). }
  unfold categories_create. setup_step.
  eapply report_after_setup; [unfold of_res; rewrite Hs; reflexivity | reflexivity .. |].
  setup_step. rewrite <- Hlen.
  case_bool_decide as Hl; [apply report_empty; simpl; lia |].
  apply loop_report; [reflexivity |].
  intros cd Hcd. apply category_item_report, Hf.
  apply (sort_by_position_elem _ _ _ Hs) in Hcd. by apply list_elem_of_filter in Hcd as [_ Hcd].
Qed.

Lemma channels_create_report t chans s :
  Forall (λ cd, chan_finite cd = true) chans →
  phase_report (channels_create api bot t chans)
    (length (filter (λ c, negb (is_category c)) chans)) true s.
Proof.
  intros Hf. rewrite Forall_forall in Hf.
  destruct (sort_by_position_finite c_position (filter (λ c, negb (is_category c)) chans))
    as (sorted & Hs & Hlen).
  { intros cd Hcd. apply list_elem_of_filter in Hcd as [_ Hcd].
    exact (proj1 (proj2 (chan_finite_fields cd (Hf cd Hcd)))). }
  unfold channels_create. setup_step.
  eapply report_after_setup; [unfold of_res; rewrite Hs; reflexivity | reflexivity .. |].
  setup_step. rewrite <- Hlen.
  case_bool_decide as Hl; [apply report_empty; simpl; lia |].
  apply loop_report; [reflexivity |].
  intros cd Hcd. apply leaf_item_report, Hf.
  apply (sort_by_position_elem _ _ _ Hs) in Hcd. by apply list_elem_of_filter in Hcd as [_ Hcd].
Qed.

Lemma emojis_create_report eds s : phase_report (emojis_create api fetch eds) (length eds) false s.
Proof.
  unfold emojis_create. setup_step. setup_step.
  case_bool_decide as Hl.
  - exists (add_out (LNote "No emojis to create")
              (set_stats (cur_op (set_stats "Creating Emojis" (completed s) (total s) (errors s) s))
                 0 (length eds)
                 (errors (set_stats "Creating Emojis" (completed s) (total s) (errors s) s))
                 (set_stats "Creating Emojis" (completed s) (total s) (errors s) s))).
    split; [reflexivity |]. split; [simpl; lia |].
    exists [], 0%nat. split; [reflexivity |]. unfold count_failed. simpl. split; [lia | done].
  - apply loop_report; [reflexivity |]. intros ed _. apply emoji_item_report.
Qed.

End Loops.

Lemma report_returns m n exact s : phase_report m n exact s → ∃ s', m s = (Ret tt, s').
Proof. intros (s' & H & _). by exists s'. Qed.

Lemma seq_reach (m k fin : M unit) s :
  (∀ s, ∃ s', m s = (Ret tt, s')) → (∀ s, ∃ s1, k s = fin s1) → ∃ s1, (m ;; k) s = fin s1.
Proof.
  intros Hm Hk. destruct (Hm s) as [s' Hs']. destruct (Hk s') as [s1 Hs1].
  exists s1. rewrite (bind_ret _ _ _ _ _ Hs'). exact Hs1.
Qed.

(** When a failed rename can only raise [Forbidden], [guild_edit]
    returns normally: the icon step swallows every exception. *)
Lemma guild_edit_returns api fetch t gd s :
  (∀ h n e, api h (EditGuildName n) = Raise e → e = Forbidden) →
  ∃ s', guild_edit api fetch t gd s = (Ret tt, s').
Proof.
  intros Hren.
  unfold guild_edit, set_op, issue, try_except, log_add, of_res, modify, mret, M_ret,
    mbind, M_bind. simpl.
  destruct (api (trace s) (EditGuildName (g_name gd))) as [h | e] eqn:Ea; simpl.
  - destruct (py_truthy (g_icon gd)); simpl; [| by eexists].
    destruct (fetch (icon_url gd)) as [z | e]; simpl; [| by eexists].
    destruct (z =? 200); simpl; [| by eexists].
    destruct (api _ (EditGuildIcon (icon_url gd))); simpl; by eexists.
  - rewrite (Hren _ _ _ Ea). simpl. by eexists.
Qed.

Ltac reach_phase :=
  first
    [ eexists; reflexivity
    | apply guild_edit_returns; assumption
    | eapply report_returns;
      first [ apply emojis_delete_report | apply channels_delete_report
            | apply roles_delete_report | apply roles_create_report
            | apply categories_create_report | apply channels_create_report
            | apply emojis_create_report ]; assumption ].




(** ** Which calls each phase issues *)

Section Calls.

Variable api : list event → call → pyres handle.
Variable fetch : string → pyres Z.
Variable bot : cfg.
Variable Q : call → Prop.
Variable base : list event.

Lemma calls_reads : reads_maps_trace (calls_since Q base).
Proof. intros s s' Ht _ _ _ (new & Hn & Hf). exists new. by rewrite Ht. Qed.

#[local] Hint Resolve calls_reads : frame.

Lemma pres_issue_calls tag c : Q c → pres (calls_since Q base) (issue api tag c).
Proof.
  intros Hc. apply pres_issue. intros s (new & Hn & Hf).
  exists ((tag, c, api (trace s) c) :: new). simpl. rewrite Hn. split; [reflexivity |].
  by constructor.
Qed.

Lemma pres_modify_calls (f : st → st) :
  (∀ s, trace (f s) = trace s) → pres (calls_since Q base) (modify f).
Proof. intros Hf. apply pres_modify. intros s (new & Hn & HQ). exists new. by rewrite Hf. Qed.

Lemma pres_raw_input_calls : pres (calls_since Q base) raw_input.
Proof.
  intros s Hs. unfold raw_input. destruct (inputs s); simpl; [exact Hs |].
  revert Hs. apply calls_reads; reflexivity.
Qed.

#[local] Hint Resolve pres_raw_input_calls : frame.

Lemma delete_item_calls (mk : handle → call) what h :
  Q (mk h) → pres (calls_since Q base) (delete_item api mk what h).
Proof.
  intros Hmk. unfold delete_item.
  apply pres_bind; [| auto with frame]. apply pres_try; [| auto with frame].
  apply pres_bind; [by apply pres_issue_calls | auto with frame].
Qed.

Lemma roles_delete_calls t :
  (∀ h, Q (DeleteRole h)) → pres (calls_since Q base) (roles_delete api t).
Proof.
  intros HQ. unfold roles_delete. apply pres_bind; [auto with frame | intros _].
  apply pres_bind; [auto with frame | intros _].
  apply pres_for_each. intros h _. by apply delete_item_calls.
Qed.

Lemma channels_delete_calls t :
  (∀ h, Q (DeleteChannel h)) → pres (calls_since Q base) (channels_delete api t).
Proof.
  intros HQ. unfold channels_delete. apply pres_bind; [auto with frame | intros _].
  apply pres_bind; [auto with frame | intros _].
  apply pres_for_each. intros h _. by apply delete_item_calls.
Qed.

Lemma emojis_delete_calls t :
  (∀ h, Q (DeleteEmoji h)) → pres (calls_since Q base) (emojis_delete api t).
Proof.
  intros HQ. unfold emojis_delete. apply pres_bind; [auto with frame | intros _].
  apply pres_bind; [auto with frame | intros _].
  apply pres_if; [auto with frame |].
  apply pres_for_each. intros h _. by apply delete_item_calls.
Qed.

Lemma guild_edit_calls t gd :
  (∀ n, Q (EditGuildName n)) → (∀ u, Q (EditGuildIcon u)) →
  pres (calls_since Q base) (guild_edit api fetch t gd).
Proof.
  intros HN HI. unfold guild_edit. apply pres_bind; [auto with frame | intros _].
  apply pres_try; [| auto with frame].
  apply pres_bind; [by apply pres_issue_calls | intros _].
  apply pres_bind; [auto with frame | intros _].
  apply pres_if; [| auto with frame].
  apply pres_try; [| auto with frame].
  apply pres_bind_res. intros status _.
  apply pres_if; [| auto with frame].
  apply pres_bind; [by apply pres_issue_calls | auto with frame].
Qed.

Hypothesis HR : ∀ c, rebuild_call c = true → Q c.

Lemma roles_create_calls t rds : pres (calls_since Q base) (roles_create api t rds).
Proof.
  unfold roles_create. apply pres_bind; [auto with frame | intros _].
  apply pres_bind; [auto with frame | intros _].
  apply pres_bind_res. intros sorted _.
  apply pres_bind.
  - apply pres_for_each. intros rd _. unfold role_item.
    apply pres_bind; [| auto with frame].
    apply pres_if; (apply pres_try; [| auto with frame]).
    + unfold everyone_edit. apply pres_bind_res. intros perms _.
      apply pres_bind; [apply pres_issue_calls; by apply HR | intros _].
      apply pres_bind; [apply pres_modify_calls; reflexivity | auto with frame].
    + unfold role_create. apply pres_bind_res. intros perms _.
      apply pres_bind_res. intros color _.
      apply pres_bind; [apply pres_issue_calls; by apply HR | intros h].
      apply pres_bind; [apply pres_modify_calls; reflexivity | auto with frame].
  - intros _. unfold reorder_roles. apply pres_bind; [auto with frame | intros _].
    apply pres_for_each. intros rd _. unfold reorder_item.
    apply pres_bind; [auto with frame | intros rm].
    destruct (rm !! r_id rd) as [h |]; [| auto with frame].
    apply pres_if; [auto with frame |].
    apply pres_try; [| auto with frame].
    apply pres_bind_res. intros pos _.
    apply pres_bind; [apply pres_issue_calls; by apply HR | auto with frame].
Qed.

Lemma categories_create_calls t chans : pres (calls_since Q base) (categories_create api bot t chans).
Proof.
  unfold categories_create. apply pres_bind; [auto with frame | intros _].
  apply pres_bind_res. intros sorted _.
  apply pres_bind; [auto with frame | intros _].
  apply pres_if; [auto with frame |].
  apply pres_for_each. intros cd _. unfold category_item.
  apply pres_bind; [| auto with frame].
  apply pres_try; [| auto with frame].
  unfold category_create. apply pres_bind; [auto with frame | intros rm].
  apply pres_bind_res. intros ow _.
  apply pres_bind; [apply pres_issue_calls; by apply HR | intros h].
  apply pres_bind_res. intros pos _.
  apply pres_bind; [apply pres_issue_calls; by apply HR | intros _].
  apply pres_bind; [apply pres_modify_calls; reflexivity | auto with frame].
Qed.

Lemma channels_create_calls t chans : pres (calls_since Q base) (channels_create api bot t chans).
Proof.
  unfold channels_create. apply pres_bind; [auto with frame | intros _].
  apply pres_bind_res. intros sorted _.
  apply pres_bind; [auto with frame | intros _].
  apply pres_if; [auto with frame |].
  apply pres_for_each. intros cd _. unfold leaf_item.
  apply pres_bind_res. intros ct _.
  apply pres_bind; [auto with frame | intros cm].
  apply pres_bind; [auto with frame | intros rm].
  apply pres_bind_res. intros ow _.
  apply pres_bind; [| auto with frame].
  apply pres_try; [| auto with frame].
  unfold leaf_create. apply pres_bind_res. intros pos _.
  apply pres_bind; [auto with frame | intros lc].
  apply pres_bind; [apply pres_issue_calls; by apply HR | intros h].
  apply pres_bind.
  - destruct lc; try auto with frame.
    apply pres_try; [| auto with frame].
    apply pres_bind; [apply pres_issue_calls; by apply HR | auto with frame].
  - intros _. apply pres_bind; [apply pres_modify_calls; reflexivity | auto with frame].
Qed.

Lemma emojis_create_calls eds : pres (calls_since Q base) (emojis_create api fetch eds).
Proof.
  unfold emojis_create. apply pres_bind; [auto with frame | intros _].
  apply pres_bind; [auto with frame | intros _].
  apply pres_if; [auto with frame |].
  apply pres_for_each. intros ed _. unfold emoji_item.
  apply pres_if; (apply pres_bind; [| auto with frame]); [auto with frame |].
  apply pres_try; [| auto with frame].
  unfold emoji_create. apply pres_bind_res. intros status _.
  apply pres_if; [| auto with frame].
  apply pres_bind; [apply pres_issue_calls; by apply HR | auto with frame].
Qed.

End Calls.

Lemma calls_since_start Q s : calls_since Q (trace s) s.
Proof. exists []. split; [reflexivity | constructor]. Qed.

Lemma stage_mono r r' base s : (r ≤ r')%nat → stage r base s → stage r' base s.
Proof.
  intros Hr (cr & del & ge & Ht & Hc & Hd & Hg & H2 & H1).
  exists cr, del, ge. split_and!; try assumption; intros ?; [apply H2 | apply H1]; lia.
Qed.

Lemma post_seq {A B} (m : M A) (k : A → M B) (P R T : st → Prop) :
  post P R m → (∀ a, post R T (k a)) → (∀ s, R s → T s) → post P T (x ← m ; k x).
Proof.
  intros Hm Hk HRT s Hs. unfold mbind, M_bind.
  specialize (Hm s Hs). destruct (m s) as [[a | e] s']; simpl in *; [by apply Hk | by apply HRT].
Qed.

Lemma post_quiet {A} (m : M A) (P : st → Prop) :
  reads_maps_trace P → (∀ s, trace (snd (m s)) = trace s ∧ role_map (snd (m s)) = role_map s ∧
                           cat_map (snd (m s)) = cat_map s ∧ chan_map (snd (m s)) = chan_map s) →
  post P P m.
Proof.
  intros HP Hm s Hs. destruct (Hm s) as (H1 & H2 & H3 & H4). exact (HP s _ H1 H2 H3 H4 Hs).
Qed.

Lemma stage_reads r base : reads_maps_trace (stage r base).
Proof.
  intros s s' Ht _ _ _ (cr & del & ge & Hn & Hrest). exists cr, del, ge. by rewrite Ht.
Qed.

Lemma post_quiet_trace {A} (m : M A) r base :
  (∀ s, trace (snd (m s)) = trace s) → post (stage r base) (stage r base) m.
Proof.
  intros Hm s (cr & del & ge & Hn & Hrest). exists cr, del, ge. by rewrite Hm.
Qed.

(** A phase issuing only calls of phase [r], run after phase [r'] ≤ [r]. *)
Lemma stage_step {A} (m : M A) (C : call → Prop) r r' base :
  (r' ≤ r)%nat →
  (∀ c, C c → match r with 0%nat => guild_call c | 1%nat => is_delete c | _ => rebuild_call c end = true) →
  (∀ b, pres (calls_since C b) m) → post (stage r' base) (stage r base) m.
Proof.
  intros Hr HC Hm s (cr & del & ge & Hn & Hc & Hd & Hg & H2 & H1).
  destruct (Hm (trace s) s (calls_since_start C s)) as (new & Hnew & Hf).
  assert (Hf' : Forall (λ ev, match r with 0%nat => guild_call (ev_call ev)
                                     | 1%nat => is_delete (ev_call ev)
                                     | _ => rebuild_call (ev_call ev) end = true) new).
  { eapply Forall_impl; [exact Hf |]. intros ev Hev. apply HC in Hev. destruct r as [| [|]]; exact Hev. }
  rewrite Hn in Hnew.
  destruct r as [| [| r]].
  - rewrite H2 in Hnew by lia. rewrite H1 in Hnew by lia.
    exists [], [], (new ++ ge). rewrite Hnew. simpl. rewrite app_assoc.
    split_and!; first [reflexivity | by apply Forall_app | by constructor | assumption | by intros | lia].
  - rewrite H2 in Hnew by lia.
    exists [], (new ++ del), ge. rewrite Hnew. simpl. rewrite app_assoc.
    split_and!; first [reflexivity | by apply Forall_app | by constructor | assumption | by intros | lia].
  - exists (new ++ cr), del, ge. rewrite Hnew. rewrite app_assoc.
    split_and!; first [reflexivity | by apply Forall_app | by constructor | assumption | by intros | lia].
Qed.

Lemma get_input_run {A} (k : string → M A) s :
  (x ← get_input ; k x) s = match inputs s with
                            | [] => (Raise OtherError, s)
                            | l :: r => k (py_strip l) (set_inputs r s)
                            end.
Proof. unfold mbind, M_bind, get_input. by destruct (inputs s). Qed.

#[local] Hint Resolve calls_reads pres_raw_input_calls : frame.

Lemma raw_input_trace s : trace (snd (raw_input s)) = trace s.
Proof. unfold raw_input. by destruct (inputs s). Qed.

Ltac stage_seq r b := apply (post_seq _ _ _ (stage r b)); [| intros _ | intros ?; apply stage_mono; lia].
Ltac stage_quiet := apply post_quiet_trace; intros ?; reflexivity.

Lemma full_clone_phases_ordered api fetch bot t src g base :
  post (stage 0 base) (stage 2 base) (full_clone_phases api fetch bot t src g).
Proof.
  unfold full_clone_phases.
  stage_seq 0%nat base; [stage_quiet |].
  stage_seq 0%nat base; [stage_quiet |].
  stage_seq 0%nat base.
  { apply (stage_step _ (λ c, guild_call c = true) 0 0); [lia | by intros c Hc |].
    intros b. apply guild_edit_calls; intros; reflexivity. }
  stage_seq 0%nat base; [stage_quiet |].
  stage_seq 1%nat base.
  { apply (stage_step _ (λ c, is_delete c = true) 1 0); [lia | by intros c Hc |].
    intros b. apply emojis_delete_calls; intros; reflexivity. }
  stage_seq 1%nat base; [stage_quiet |].
  stage_seq 1%nat base.
  { apply (stage_step _ (λ c, is_delete c = true) 1 1); [lia | by intros c Hc |].
    intros b. apply channels_delete_calls; intros; reflexivity. }
  stage_seq 1%nat base; [stage_quiet |].
  stage_seq 1%nat base.
  { apply (stage_step _ (λ c, is_delete c = true) 1 1); [lia | by intros c Hc |].
    intros b. apply roles_delete_calls; intros; reflexivity. }
  stage_seq 1%nat base; [stage_quiet |].
  stage_seq 2%nat base.
  { apply (stage_step _ (λ c, rebuild_call c = true) 2 1); [lia | by intros c Hc |].
    intros b. apply roles_create_calls; by intros. }
  stage_seq 2%nat base; [stage_quiet |].
  stage_seq 2%nat base.
  { apply (stage_step _ (λ c, rebuild_call c = true) 2 2); [lia | by intros c Hc |].
    intros b. apply categories_create_calls; by intros. }
  stage_seq 2%nat base; [stage_quiet |].
  stage_seq 2%nat base.
  { apply (stage_step _ (λ c, rebuild_call c = true) 2 2); [lia | by intros c Hc |].
    intros b. apply channels_create_calls; by intros. }
  stage_seq 2%nat base; [stage_quiet |].
  stage_seq 2%nat base.
  { apply (stage_step _ (λ c, rebuild_call c = true) 2 2); [lia | by intros c Hc |].
    intros b. apply emojis_create_calls; by intros. }
  stage_seq 2%nat base; [apply post_quiet_trace; apply raw_input_trace |].
  stage_quiet.
Qed.

Lemma phase_ordered_start s : phase_ordered (trace s) s.
Proof. exists [], [], []. split_and!; [reflexivity | constructor ..]. Qed.

(** X1: whatever the answers, the API and the failures, a full clone
    issues its calls in phase order: first the guild rename and icon,
    then the deletions of emojis, channels and roles, then the calls that
    rebuild roles, categories, channels and emojis; no deletion comes
    after a rebuild call. *)
Theorem full_clone_phase_order api fetch bot s :
  phase_ordered (trace s) (snd (do_full_clone api fetch bot s)).
Proof.
  unfold do_full_clone.
  destruct (scraped_data bot) as [src |]; [| apply phase_ordered_start].
  destruct (check_target bot) as [t |]; [| apply phase_ordered_start].
  destruct (src_guild src) as [g |]; [| apply phase_ordered_start].
  rewrite gate_run.
  destruct (inputs s) as [| l r]; [apply phase_ordered_start |].
  destruct (String.eqb (py_strip l) "clone").
  - destruct (full_clone_phases_ordered api fetch bot t src g (trace s) (set_inputs r s))
      as (cr & del & ge & Ht & Hc & Hd & Hg & _).
    { exists [], [], []. split_and!; [reflexivity | constructor .. | by intros | by intros]. }
    exists cr, del, ge. auto.
  - exact (phase_ordered_start (set_inputs r s)).
Qed.

Lemma rebuild_not_delete c : rebuild_call c = true → is_delete c = false.
Proof. by destruct c. Qed.

Lemma answer_not_y s l r :
  next_answer_not "y" s → inputs s = l :: r → String.eqb (py_strip l) "y" = false.
Proof. intros Hn Hi. apply String.eqb_neq. apply Hn. by rewrite Hi. Qed.

Ltac no_delete_block :=
  repeat first
    [ apply roles_create_calls; apply rebuild_not_delete
    | apply categories_create_calls; apply rebuild_not_delete
    | apply channels_create_calls; apply rebuild_not_delete
    | apply emojis_create_calls; apply rebuild_not_delete
    | solve [auto with frame]
    | apply pres_bind; [| intros ?] ].

(** X2: [do_clone_roles], [do_clone_structure] and [do_clone_emojis]
    delete nothing unless the answer to ["delete existing first? (y/n)"],
    stripped, is exactly ["y"]: otherwise every call they issue is a
    creation or edit call. *)
Theorem partial_clones_delete_only_on_y api fetch bot s :
  next_answer_not "y" s →
  calls_since (λ c, is_delete c = false) (trace s) (snd (do_clone_roles api bot s)) ∧
  calls_since (λ c, is_delete c = false) (trace s) (snd (do_clone_structure api bot s)) ∧
  calls_since (λ c, is_delete c = false) (trace s) (snd (do_clone_emojis api fetch bot s)).
Proof.
  intros Hy. unfold do_clone_roles, do_clone_structure, do_clone_emojis.
  destruct (scraped_data bot) as [src |]; [| split_and!; apply calls_since_start].
  destruct (check_target bot) as [t |]; [| split_and!; apply calls_since_start].
  rewrite !get_input_run.
  destruct (inputs s) as [| l r] eqn:Hi; [split_and!; apply calls_since_start |].
  rewrite (answer_not_y s l r Hy Hi).
  split_and!;
    match goal with |- calls_since ?Q ?b (snd (?m ?s0)) =>
      apply (λ H : pres (calls_since Q b) m, H s0 (calls_since_start Q s0)) end;
    no_delete_block.
Qed.

Lemma partial_clones_delete_only_on_y_witness :
  next_answer_not "y" (sample_state ["n"; ""]) ∧
  calls_since (λ c, is_delete c = false) []
    (snd (do_clone_roles api_ok sample_bot (sample_state ["n"; ""]))).
Proof.
  assert (Hn : next_answer_not "y" (sample_state ["n"; ""])).
  { intros l Hl. injection Hl as <-. vm_compute. discriminate. }
  split; [exact Hn |].
  exact (proj1 (partial_clones_delete_only_on_y api_ok fetch_404 sample_bot
                  (sample_state ["n"; ""]) Hn)).
Defined.

Section Exact.

Variable api : list event → call → pyres handle.
Hypothesis Hapi : api_http_only api.

Lemma delete_item_exact (mk : handle → call) what h s :
  ∃ r s1, delete_item api mk what h s = (Ret tt, s1) ∧ trace s1 = (KNone, mk h, r) :: trace s.
Proof.
  unfold delete_item. run_m.
  destruct (api (trace s) (mk h)) as [h' | e] eqn:E; simpl.
  - eexists _, _. split; reflexivity.
  - rewrite (Hapi _ _ _ E). simpl. eexists _, _. split; reflexivity.
Qed.

Lemma delete_loop_exact (mk : handle → call) what l s :
  ∃ s', for_each l (delete_item api mk what) s = (Ret tt, s') ∧
    ∃ new, trace s' = new ++ trace s ∧ map fst (rev new) = map (λ h, (KNone, mk h)) l.
Proof.
  revert s. induction l as [| h r IH]; intros s; simpl.
  - exists s. split; [reflexivity |]. by exists [].
  - destruct (delete_item_exact mk what h s) as (res & s1 & H1 & Ht1).
    destruct (IH s1) as (s2 & H2 & new & Hn & Hm).
    exists s2. rewrite (bind_ret _ _ _ _ _ H1). split; [exact H2 |].
    exists (new ++ [(KNone, mk h, res)]). rewrite Hn, Ht1, <- app_assoc. split; [reflexivity |].
    rewrite rev_app_distr. simpl. by rewrite Hm.
Qed.

End Exact.

(** X3: when the API fails only with [discord.HTTPException], each
    deletion phase issues exactly one delete call per object, in the
    order of the target's list: every role but [@everyone] for
    [roles_delete], every channel for [channels_delete], every emoji for
    [emojis_delete]; a failed delete does not stop the loop. *)
Theorem deletion_phases_exact api t s :
  api_http_only api →
  (∃ new, trace (snd (roles_delete api t s)) = new ++ trace s ∧
     map fst (rev new) = map (λ h, (KNone, DeleteRole h))
                            (filter (λ r, negb (String.eqb (hname r) "@everyone")) (t_roles t))) ∧
  (∃ new, trace (snd (channels_delete api t s)) = new ++ trace s ∧
     map fst (rev new) = map (λ h, (KNone, DeleteChannel h)) (t_channels t)) ∧
  (∃ new, trace (snd (emojis_delete api t s)) = new ++ trace s ∧
     map fst (rev new) = map (λ h, (KNone, DeleteEmoji h)) (t_emojis t)).
Proof.
  intros Hapi. unfold roles_delete, channels_delete, emojis_delete. run_m.
  split_and!.
  - match goal with |- context [for_each ?l ?b ?s0] =>
      destruct (delete_loop_exact api Hapi DeleteRole "role" l s0) as (s' & Hl & new & Hn & Hm) end.
    rewrite Hl. simpl. exists new. split; [exact Hn | exact Hm].
  - match goal with |- context [for_each ?l ?b ?s0] =>
      destruct (delete_loop_exact api Hapi DeleteChannel "channel" l s0) as (s' & Hl & new & Hn & Hm) end.
    rewrite Hl. simpl. exists new. split; [exact Hn | exact Hm].
  - case_bool_decide as Hz.
    + exists []. simpl. split; [reflexivity |].
      apply length_zero_iff_nil in Hz. by rewrite Hz.
    + match goal with |- context [for_each ?l ?b ?s0] =>
        destruct (delete_loop_exact api Hapi DeleteEmoji "emoji" l s0) as (s' & Hl & new & Hn & Hm) end.
      rewrite Hl. simpl. exists new. split; [exact Hn | exact Hm].
Qed.

Lemma deletion_phases_exact_witness :
  api_http_only api_position_fails ∧
  ∃ new, trace (snd (roles_delete api_position_fails sample_target (sample_state []))) = new ∧
    map fst (rev new) = [(KNone, DeleteRole (mkhandle 2 "old"))].
Proof.
  assert (Ha : api_http_only api_position_fails).
  { intros h c e He. destruct c; simpl in He; try discriminate; by injection He as <-. }
  split; [exact Ha |].
  destruct (deletion_phases_exact api_position_fails sample_target (sample_state []) Ha)
    as ((new & Hn & Hm) & _).
  exists new. rewrite app_nil_r in Hn. split; [exact Hn |]. rewrite Hm. reflexivity.
Defined.

(** ** [sorted(..., key=lambda x: safe_int(x.get("position", 0)))] *)

Lemma insert_keyed_perm {A} (p : Z * A) l : insert_keyed p l ≡ₚ p :: l.
Proof.
  induction l as [| q r IH]; simpl; [reflexivity |].
  destruct (p.1 <? q.1); [reflexivity |].
  rewrite IH. by constructor.
Qed.

Lemma fold_insert_perm {A} (kl acc : list (Z * A)) :
  fold_left (λ acc p, insert_keyed p acc) kl acc ≡ₚ kl ++ acc.
Proof.
  revert acc. induction kl as [| p r IH]; intros acc; simpl; [reflexivity |].
  rewrite IH, insert_keyed_perm. by rewrite Permutation_middle.
Qed.

Lemma insert_keyed_sorted {A} (p : Z * A) l :
  StronglySorted (λ a b, a.1 <= b.1) l → StronglySorted (λ a b, a.1 <= b.1) (insert_keyed p l).
Proof.
  induction l as [| q r IH]; simpl; intros Hs.
  - repeat constructor.
  - apply StronglySorted_inv in Hs as [Hr Hq].
    destruct (p.1 <? q.1) eqn:Hpq.
    + apply Z.ltb_lt in Hpq. constructor; [exact (SSorted_cons q Hr Hq) |].
      constructor; [lia |]. eapply Forall_impl; [exact Hq |]. simpl. intros x Hx. lia.
    + apply Z.ltb_ge in Hpq. constructor; [exact (IH Hr) |].
      apply Forall_forall. intros x Hx.
      apply insert_keyed_elem in Hx as [-> | Hx]; [lia |].
      exact (proj1 (Forall_forall _ _) Hq x Hx).
Qed.

Lemma fold_insert_sorted {A} (kl acc : list (Z * A)) :
  StronglySorted (λ a b, a.1 <= b.1) acc →
  StronglySorted (λ a b, a.1 <= b.1) (fold_left (λ acc p, insert_keyed p acc) kl acc).
Proof.
  revert acc. induction kl as [| p r IH]; intros acc Hs; simpl; [exact Hs |].
  apply IH. by apply insert_keyed_sorted.
Qed.

Lemma keyed_keys {A} (f : A → pyval) l kl :
  keyed f l = Ret kl → Forall (λ p, safe_int (f p.2) 0 = Ret p.1) kl.
Proof.
  revert kl. induction l as [| x r IH]; simpl; intros kl Hk.
  - injection Hk as <-. constructor.
  - destruct (safe_int (f x) 0) as [k | e] eqn:Hx; [| discriminate].
    destruct (keyed f r) as [kr | e] eqn:Hr; [| discriminate].
    injection Hk as <-. constructor; [exact Hx | exact (IH kr eq_refl)].
Qed.

Lemma keyed_of_keys {A} (f : A → pyval) kl :
  Forall (λ p, safe_int (f p.2) 0 = Ret p.1) kl → keyed f (map snd kl) = Ret kl.
Proof.
  induction 1 as [| [k x] r Hx Hr IH]; simpl in *; [reflexivity |].
  by rewrite Hx, IH.
Qed.

Lemma StronglySorted_lookup {B} (R : B → B → Prop) l :
  StronglySorted R l → ∀ i j a b, (i < j)%nat → l !! i = Some a → l !! j = Some b → R a b.
Proof.
  induction 1 as [| x r Hr IH Hx]; intros i j a b Hij Hi Hj; [discriminate |].
  destruct i as [| i], j as [| j]; simpl in *; [lia | | lia |].
  - injection Hi as <-. apply list_elem_of_lookup_2 in Hj.
    exact (proj1 (Forall_forall _ _) Hx b Hj).
  - apply (IH i j); [lia | exact Hi | exact Hj].
Qed.

(** X4: the sort the clone phases use ([sorted] with key
    [safe_int(position, 0)]) returns a rearrangement of its input in which
    the keys, computed on the output, never decrease. *)
Theorem sort_by_position_sorted {A} (f : A → pyval) l l' :
  sort_by_position f l = Ret l' →
  l' ≡ₚ l ∧
  ∃ ks, keyed f l' = Ret ks ∧
    ∀ i j p q, (i < j)%nat → ks !! i = Some p → ks !! j = Some q → p.1 <= q.1.
Proof.
  unfold sort_by_position. destruct (keyed f l) as [kl | e] eqn:Hk; [| discriminate].
  intros Hs. injection Hs as <-.
  set (res := fold_left (λ acc p, insert_keyed p acc) kl []).
  split.
  - rewrite <- (keyed_snd f l kl Hk). apply Permutation_map.
    unfold res. rewrite fold_insert_perm. by rewrite app_nil_r.
  - exists res. split.
    + apply keyed_of_keys.
      assert (Hp : kl ++ [] ≡ₚ res) by (symmetry; apply fold_insert_perm).
      rewrite app_nil_r in Hp. rewrite <- Hp. exact (keyed_keys f l kl Hk).
    + apply StronglySorted_lookup. apply fold_insert_sorted. constructor.
Qed.

Lemma sort_by_position_sorted_witness :
  sort_by_position r_position [sample_role; mkrole (KStr "8") "a" PNone PNone PNone PNone (PStr "0")]
  = Ret [mkrole (KStr "8") "a" PNone PNone PNone PNone (PStr "0"); sample_role] ∧
  [mkrole (KStr "8") "a" PNone PNone PNone PNone (PStr "0"); sample_role]
    ≡ₚ [sample_role; mkrole (KStr "8") "a" PNone PNone PNone PNone (PStr "0")].
Proof.
  assert (Hs : sort_by_position r_position
                 [sample_role; mkrole (KStr "8") "a" PNone PNone PNone PNone (PStr "0")]
               = Ret [mkrole (KStr "8") "a" PNone PNone PNone PNone (PStr "0"); sample_role])
    by (vm_compute; reflexivity).
  split; [exact Hs |]. exact (proj1 (sort_by_position_sorted _ _ _ Hs)).
Defined.

(** ** The overwrites dict of [parse_permission_overwrites] *)

Lemma ow_set_keys (k : handle) (w : Z * Z) (d : overwrites_to) x :
  x ∈ map fst (ow_set k w d) → x = k ∨ x ∈ map fst d.
Proof.
  intros Hx. apply list_elem_of_fmap in Hx as ([h v] & -> & Hin).
  apply ow_set_elem in Hin as [Heq | Hin].
  - injection Heq as -> ->. by left.
  - right. apply list_elem_of_fmap. by exists (h, v).
Qed.

Lemma ow_set_nodup (k : handle) (w : Z * Z) (d : overwrites_to) :
  NoDup (map fst d) → NoDup (map fst (ow_set k w d)).
Proof.
  induction d as [| [k' v'] d IH]; simpl; intros Hnd.
  - repeat constructor. by intros ?%elem_of_nil.
  - apply NoDup_cons in Hnd as [Hk' Hnd]. case_decide as Hk; simpl.
    + subst. by constructor.
    + constructor; [| exact (IH Hnd)].
      intros [-> | Hin]%ow_set_keys; [by apply Hk | exact (Hk' Hin)].
Qed.

Lemma ow_set_hit (k : handle) (w : Z * Z) (d : overwrites_to) : (k, w) ∈ ow_set k w d.
Proof.
  induction d as [| [k' v'] d IH]; simpl; [by left |].
  case_decide; [by left | by right].
Qed.

Lemma ow_set_other (k : handle) (w : Z * Z) (d : overwrites_to) h v :
  (h, v) ∈ d → h ≠ k → (h, v) ∈ ow_set k w d.
Proof.
  induction d as [| [k' v'] d IH]; simpl; intros Hin Hne; [by apply elem_of_nil in Hin |].
  apply elem_of_cons in Hin as [Heq | Hin].
  - injection Heq as -> ->. case_decide; [congruence | by left].
  - case_decide; right; [exact Hin | exact (IH Hin Hne)].
Qed.

Lemma parse_ows_nodup rm src dflt ows :
  ∀ acc out, NoDup (map fst acc) → parse_ows rm src dflt ows acc = Ret out → NoDup (map fst out).
Proof.
  induction ows as [| ow r IH]; simpl; intros acc out Hnd Hp.
  - by injection Hp as <-.
  - destruct (safe_int (ow_id ow) 0) as [sid | e]; [| discriminate].
    destruct (safe_int (ow_allow ow) 0) as [al | e]; [| discriminate].
    destruct (safe_int (ow_deny ow) 0) as [de | e]; [| discriminate].
    refine (IH _ _ _ Hp).
    destruct (py_eq_int (ow_type ow) 0); [| exact Hnd].
    destruct (resolve_group rm src dflt sid); [by apply ow_set_nodup | exact Hnd].
Qed.

Lemma parse_ows_keep rm src dflt ows :
  ∀ acc out h v, parse_ows rm src dflt ows acc = Ret out → (h, v) ∈ acc →
  (∀ ow, ow ∈ ows → ow_target rm src dflt ow ≠ Some h) → (h, v) ∈ out.
Proof.
  induction ows as [| ow r IH]; simpl; intros acc out h v Hp Hin Hnot.
  - by injection Hp as <-.
  - destruct (safe_int (ow_id ow) 0) as [sid | e] eqn:Hid; [| discriminate].
    destruct (safe_int (ow_allow ow) 0) as [al | e]; [| discriminate].
    destruct (safe_int (ow_deny ow) 0) as [de | e]; [| discriminate].
    apply (IH _ _ _ _ Hp); [| intros ow' Hin'; apply Hnot; by right].
    assert (Hne := Hnot ow ltac:(by left)). unfold ow_target in Hne. rewrite Hid in Hne.
    destruct (py_eq_int (ow_type ow) 0); [| exact Hin].
    destruct (resolve_group rm src dflt sid) as [h0 |]; [| exact Hin].
    apply ow_set_other; [exact Hin | congruence].
Qed.

Lemma parse_ows_app rm src dflt pre post acc :
  parse_ows rm src dflt (pre ++ post) acc =
  match parse_ows rm src dflt pre acc with
  | Ret acc' => parse_ows rm src dflt post acc'
  | Raise e => Raise e
  end.
Proof.
  revert acc. induction pre as [| ow r IH]; intros acc; simpl; [reflexivity |].
  destruct (safe_int (ow_id ow) 0); [| reflexivity].
  destruct (safe_int (ow_allow ow) 0); [| reflexivity].
  destruct (safe_int (ow_deny ow) 0); [| reflexivity].
  apply IH.
Qed.

(** X5: [overwrites_to] is a dict: each target role appears once, and the
    pair it holds is the allow/deny of the last overwrite resolving to it
    (an overwrite of group kind whose id resolves through [role_map] or
    to the source guild's default role); later overwrites for the same
    role replace earlier ones. *)
Theorem overwrites_last_wins rm src dflt ows out :
  parse_permission_overwrites rm src dflt ows = Ret out →
  NoDup (map fst out) ∧
  ∀ pre ow post h a d,
    ows = pre ++ ow :: post →
    ow_target rm src dflt ow = Some h →
    safe_int (ow_allow ow) 0 = Ret a → safe_int (ow_deny ow) 0 = Ret d →
    (∀ ow', ow' ∈ post → ow_target rm src dflt ow' ≠ Some h) →
    (h, (a, d)) ∈ out.
Proof.
  unfold parse_permission_overwrites. intros Hp. split.
  - exact (parse_ows_nodup rm src dflt ows [] out ltac:(constructor) Hp).
  - intros pre ow post h a d -> Ht Ha Hd Hnot.
    rewrite parse_ows_app in Hp.
    destruct (parse_ows rm src dflt pre []) as [acc1 | e]; [| discriminate].
    simpl in Hp. unfold ow_target in Ht.
    destruct (safe_int (ow_id ow) 0) as [sid | e]; [| discriminate].
    rewrite Ha, Hd in Hp.
    destruct (py_eq_int (ow_type ow) 0); [| discriminate].
    rewrite Ht in Hp.
    exact (parse_ows_keep _ _ _ _ _ _ _ _ Hp (ow_set_hit h (a, d) acc1) Hnot).
Qed.

Lemma overwrites_last_wins_witness :
  parse_permission_overwrites ∅ (Some 5) (mkhandle 1 "@everyone")
    [mkoverwrite (PInt 0) (PInt 5) (PInt 1) (PInt 0); mkoverwrite (PInt 0) (PInt 5) (PInt 2) (PInt 4)]
  = Ret [(mkhandle 1 "@everyone", (2, 4))] ∧
  (mkhandle 1 "@everyone", (2, 4)) ∈ [(mkhandle 1 "@everyone", (2, 4))].
Proof.
  assert (Hp : parse_permission_overwrites ∅ (Some 5) (mkhandle 1 "@everyone")
    [mkoverwrite (PInt 0) (PInt 5) (PInt 1) (PInt 0); mkoverwrite (PInt 0) (PInt 5) (PInt 2) (PInt 4)]
    = Ret [(mkhandle 1 "@everyone", (2, 4))]) by (vm_compute; reflexivity).
  split; [exact Hp |].
  apply (proj2 (overwrites_last_wins _ _ _ _ _ Hp)
           [mkoverwrite (PInt 0) (PInt 5) (PInt 1) (PInt 0)]
           (mkoverwrite (PInt 0) (PInt 5) (PInt 2) (PInt 4)) []).
  - reflexivity.
  - vm_compute. reflexivity.
  - vm_compute. reflexivity.
  - vm_compute. reflexivity.
  - intros ow' Hin. by apply elem_of_nil in Hin.
Defined.

(** ** [get_target], [check_target] and [set_target] *)

Lemma check_get_target c t :
  check_target c = Some t ↔
  get_target c = Some t ∧ t_manage_channels t = true ∧ t_manage_roles t = true.
Proof.
  unfold check_target, get_target.
  destruct (client c) as [gs |]; [| split; [discriminate | intros [? _]; discriminate]].
  destruct (target_id c) as [tid |]; [| split; [discriminate | intros [? _]; discriminate]].
  destruct (tid =? 0); [split; [discriminate | intros [? _]; discriminate] |].
  destruct (get_guild gs tid) as [g |]; [| split; [discriminate | intros [? _]; discriminate]].
  destruct (t_manage_channels g) eqn:Hc, (t_manage_roles g) eqn:Hr; simpl;
    split; try (intros [? [? ?]]); try intros ?; try congruence.
  all: try (injection H as <-; congruence).
  split; [exact H | split; congruence].
Qed.

(** X6: [check_target] returns exactly the guild [get_target] returns,
    and only when the bot's member there has both [manage_channels] and
    [manage_roles]; it returns [None] in every other case. *)
Theorem check_target_is_checked_get_target c t :
  check_target c = Some t ↔
  get_target c = Some t ∧ t_manage_channels t = true ∧ t_manage_roles t = true.
Proof. exact (check_get_target c t). Qed.

Lemma get_guild_elem gs id g : get_guild gs id = Some g → g ∈ gs ∧ t_id g = id.
Proof.
  unfold get_guild. induction gs as [| g' r IH]; simpl; [discriminate |].
  destruct (t_id g' =? id) eqn:He.
  - intros Hg. injection Hg as <-. split; [by left | by apply Z.eqb_eq].
  - intros Hg. destruct (IH Hg) as [Hin Hid]. split; [by right | exact Hid].
Qed.

Lemma get_guild_unique gs g : NoDup (map t_id gs) → g ∈ gs → get_guild gs (t_id g) = Some g.
Proof.
  unfold get_guild. induction gs as [| g' r IH]; simpl; intros Hnd Hin;
    [by apply elem_of_nil in Hin |].
  apply NoDup_cons in Hnd as [Hn Hnd].
  apply elem_of_cons in Hin as [-> | Hin]; [by rewrite Z.eqb_refl |].
  destruct (t_id g' =? t_id g) eqn:He; [| exact (IH Hnd Hin)].
  apply Z.eqb_eq in He. exfalso. apply Hn. rewrite He.
  apply list_elem_of_fmap. by exists g.
Qed.

Lemma select_target_elem gs sel g : select_target gs sel = Some g → g ∈ gs.
Proof.
  unfold select_target. destruct (py_int_of_str sel) as [num | e]; [| discriminate].
  destruct ((1 <=? num) && (num <=? Z.of_nat (length gs))).
  - intros Hn. apply nth_error_In in Hn. by apply list_elem_of_In.
  - intros Hg. exact (proj1 (get_guild_elem _ _ _ Hg)).
Qed.

(** X7: [set_target] either keeps the configuration and logs an error
    (no client connected, or an invalid selection), or the client is
    connected and [target_id] is pointed at a guild of its list, whose
    name is logged; when guild ids are distinct and nonzero, [get_target]
    then returns that very guild. *)
Theorem set_target_selects c line :
  (fst (set_target c line) = c ∧ fst (snd (set_target c line)) = "err") ∨
  ∃ gs g, client c = Some gs ∧ g ∈ gs ∧
    fst (set_target c line) = with_target_id c (t_id g) ∧
    snd (set_target c line) = ("ok", ("target: " ++ t_name g)%string) ∧
    (NoDup (map t_id gs) → Forall (λ g, t_id g ≠ 0) gs →
     get_target (fst (set_target c line)) = Some g).
Proof.
  unfold set_target. destruct (client c) as [gs |] eqn:Hc; [| left; auto].
  destruct (select_target gs (py_strip line)) as [g |] eqn:Hs; [| left; auto].
  right. apply select_target_elem in Hs.
  exists gs, g. split_and!; [reflexivity | exact Hs | reflexivity | reflexivity |].
  intros Hnd Hnz.
  unfold get_target, with_target_id. simpl. rewrite Hc.
  assert (Hz : t_id g ≠ 0) by exact (proj1 (Forall_forall _ _) Hnz g Hs).
  apply Z.eqb_neq in Hz. rewrite Hz.
  exact (get_guild_unique gs g Hnd Hs).
Qed.

Lemma set_target_selects_witness :
  set_target (mkcfg None None None None) "1" = (mkcfg None None None None, ("err", "connect bot first")) ∧
  set_target (mkcfg (Some [sample_target; sample_second]) None None None) " 2 "
  = (mkcfg (Some [sample_target; sample_second]) (Some 2) None None, ("ok", "target: U")) ∧
  get_target (fst (set_target (mkcfg (Some [sample_target; sample_second]) None None None) " 2 "))
  = Some sample_second.
Proof.
  split; [vm_compute; reflexivity |]. split; [vm_compute; reflexivity |].
  destruct (set_target_selects (mkcfg (Some [sample_target; sample_second]) None None None) " 2 ")
    as [[_ Herr] | (gs & g & Hc & Hg & Hf & Hs & Hget)].
  - vm_compute in Herr. discriminate Herr.
  - injection Hc as <-. vm_compute in Hs. injection Hs as Hn.
    apply elem_of_cons in Hg as [-> | Hg]; [vm_compute in Hn; discriminate Hn |].
    apply elem_of_cons in Hg as [-> | Hg]; [| by apply elem_of_nil in Hg].
    apply Hget.
    + apply (bool_decide_unpack _). vm_compute. reflexivity.
    + repeat constructor; discriminate.
Defined.

(** ** The log deque of [CloneBot.log] and the panel of [show_logs] *)

Lemma length_lastn {A} n (l : list A) : length (lastn n l) = Nat.min n (length l).
Proof. unfold lastn. rewrite length_drop. lia. Qed.

Lemma lastn_lastn {A} m n (l : list A) : (m <= n)%nat → lastn m (lastn n l) = lastn m l.
Proof.
  intros Hmn. unfold lastn at 1. rewrite length_lastn. unfold lastn.
  rewrite drop_drop. f_equal. lia.
Qed.

Lemma lastn_app_lastn {A} n (l r : list A) : lastn n (lastn n l ++ r) = lastn n (l ++ r).
Proof.
  unfold lastn at 2. rewrite <- drop_app_le by lia.
  unfold lastn. rewrite drop_drop, length_drop. f_equal.
  rewrite length_app. lia.
Qed.

Lemma deque_append_lastn {A} (maxlen : nat) (d : list A) x :
  (0 < maxlen)%nat → (length d <= maxlen)%nat → deque_append maxlen d x = lastn maxlen (d ++ [x]).
Proof.
  intros Hpos Hle. unfold deque_append, lastn. rewrite length_app. simpl.
  case_bool_decide as Hlt.
  - replace (length d + 1 - maxlen)%nat with 0%nat by lia. by rewrite drop_0.
  - f_equal. lia.
Qed.

Lemma bot_log_all_lastn l0 es :
  (length l0 <= 30)%nat → bot_log_all l0 es = lastn 30 (l0 ++ es).
Proof.
  unfold bot_log_all. revert l0. induction es as [| e r IH]; intros l0 Hle; simpl.
  - unfold lastn. replace (length (l0 ++ []) - 30)%nat with 0%nat; [by rewrite app_nil_r |].
    rewrite length_app. simpl. lia.
  - unfold bot_log at 2. rewrite deque_append_lastn by lia.
    rewrite IH by (rewrite length_lastn; lia).
    rewrite lastn_app_lastn, <- app_assoc. reflexivity.
Qed.

(** X8: [CloneBot.logs] is a [deque(maxlen=30)]: after any sequence of
    [log] calls on a deque of at most 30 entries, it holds the last 30
    entries of everything appended, oldest first. *)
Theorem logs_keep_last_30 l0 es :
  (length l0 <= 30)%nat → bot_log_all l0 es = lastn 30 (l0 ++ es).
Proof. exact (bot_log_all_lastn l0 es). Qed.

Lemma logs_keep_last_30_witness :
  (length (@nil log_entry) <= 30)%nat ∧
  bot_log_all [] (map (λ n, ("t", "info", pretty (Z.of_nat n))) (seq 0 33))
  = lastn 30 ([] ++ map (λ n, ("t", "info", pretty (Z.of_nat n))) (seq 0 33)).
Proof.
  split; [simpl; lia |]. apply logs_keep_last_30. simpl. lia.
Defined.

Lemma string_length_app (a b : string) :
  String.length (a ++ b) = (String.length a + String.length b)%nat.
Proof. induction a as [| c a IH]; simpl; [reflexivity | by rewrite IH]. Qed.

Lemma log_line_long e : (22 < String.length (log_line e))%nat.
Proof.
  destruct e as [[t lvl] msg]. unfold log_line.
  assert (Hc : (3 <= String.length (level_color lvl))%nat).
  { unfold level_color.
    repeat match goal with |- context [if ?b then _ else _] => destruct b end; simpl; lia. }
  cbv beta iota zeta. rewrite !string_length_app.
  change (String.length "[dim]") with 5%nat. change (String.length "[/dim] [") with 8%nat.
  change (String.length "]") with 1%nat. change (String.length "[/") with 2%nat. lia.
Qed.

Lemma concat_long sep x xs : (String.length x <= String.length (String.concat sep (x :: xs)))%nat.
Proof.
  destruct xs as [| y ys]; simpl; [lia |].
  rewrite string_length_app. lia.
Qed.

Lemma show_logs_text_waiting logs :
  show_logs_text logs = "[dim]waiting...[/dim]" ↔ logs = [].
Proof.
  split; [| intros ->; reflexivity].
  unfold show_logs_text. intros Hs.
  destruct (lastn 5 logs) as [| e r] eqn:Hl.
  - apply (f_equal length) in Hl. rewrite length_lastn in Hl. simpl in Hl.
    destruct logs; [reflexivity | simpl in Hl; lia].
  - change (String.concat newline (log_line e :: map log_line r) = "[dim]waiting...[/dim]") in Hs.
    exfalso.
    assert (H1 := log_line_long e). assert (H2 := concat_long newline (log_line e) (map log_line r)).
    rewrite Hs in H2. simpl in H2. lia.
Qed.

(** X9: the log panel of [show_logs] is unaffected by the deque's bound:
    it renders the last five entries of everything logged, and it shows
    the ["waiting..."] placeholder exactly when nothing was ever logged,
    since every rendered entry is longer than the placeholder. *)
Theorem show_logs_last_five l0 es :
  (length l0 <= 30)%nat →
  show_logs_text (bot_log_all l0 es) = show_logs_text (l0 ++ es) ∧
  (show_logs_text (bot_log_all l0 es) = "[dim]waiting...[/dim]" ↔ l0 ++ es = []).
Proof.
  intros Hle. rewrite bot_log_all_lastn by exact Hle.
  assert (Hs : show_logs_text (lastn 30 (l0 ++ es)) = show_logs_text (l0 ++ es)).
  { unfold show_logs_text. rewrite lastn_lastn by lia. reflexivity. }
  rewrite Hs. split; [reflexivity | apply show_logs_text_waiting].
Qed.

Lemma show_logs_last_five_witness :
  (length [("12:00:00", "ok", "a")] <= 30)%nat ∧
  show_logs_text (bot_log_all [("12:00:00", "ok", "a")] [("12:00:01", "err", "b")])
  = show_logs_text ([("12:00:00", "ok", "a")] ++ [("12:00:01", "err", "b")]) ∧
  (show_logs_text (bot_log_all [("12:00:00", "ok", "a")] [("12:00:01", "err", "b")])
   = "[dim]waiting...[/dim]" ↔ [("12:00:00", "ok", "a")] ++ [("12:00:01", "err", "b")] = []).
Proof.
  split; [simpl; lia |]. apply show_logs_last_five. simpl. lia.
Defined.

(** ** [CloneBot.scrape_source] *)

(** X10: [scrape_source] either changes nothing and reads nothing (no
    scraper, or an id [int()] rejects), with one error log; or it stores
    the parsed id and the snapshot of [scrape_server] whatever the guild
    read gave, having read the four endpoints, and it logs an ["ok"] entry
    exactly when the guild read returned a dict with a ["name"] key and no
    ["error"] key. *)
Theorem scrape_source_outcome has_scraper get line b :
  (fst (fst (scrape_source has_scraper get line b)) = b ∧
   snd (scrape_source has_scraper get line b) = [] ∧
   ∃ m, snd (fst (scrape_source has_scraper get line b)) = [("err", m)]) ∨
  (∃ sid, py_int_of_str (py_strip line) = Ret sid ∧
   fst (fst (scrape_source has_scraper get line b))
     = mkscrape (Some sid) (Some (snd (scrape_server get sid))) ∧
   snd (scrape_source has_scraper get line b) = fst (scrape_server get sid) ∧
   (existsb (λ e, String.eqb e.1 "ok") (snd (fst (scrape_source has_scraper get line b))) = true ↔
    ∃ d n, get (guild_endpoint sid) = PDict d ∧ dict_get "error" (PDict d) = None ∧
      dict_get "name" (PDict d) = Some n)).
Proof.
  unfold scrape_source. destruct has_scraper; cbn -[dict_get]; [| left; eauto].
  destruct (py_int_of_str (py_strip line)) as [sid | e]; cbn -[dict_get]; [| left; eauto].
  right. exists sid. split_and!; [reflexivity | reflexivity | reflexivity |].
  destruct (get (guild_endpoint sid)) as [| ? | ? | ? | ? | ? | d] eqn:Hg; cbn -[dict_get];
    try (split; [discriminate | intros (? & ? & ? & _); discriminate]).
  destruct (dict_get "error" (PDict d)) as [er |] eqn:He.
  - destruct (dict_get "status" (PDict d)); cbn -[dict_get];
      (split; [discriminate | intros (? & ? & Hd & He' & _); injection Hd as ->; congruence]).
  - destruct (dict_get "name" (PDict d)) as [n |] eqn:Hn; cbn -[dict_get].
    + split; [intros _; by exists d, n | reflexivity].
    + split; [discriminate | intros (? & ? & Hd & _ & Hn'); injection Hd as ->; congruence].
Qed.

(** ** The calls of [emojis_create], [guild_edit] and [reorder_roles] *)

Section Issued.

Variable api : list event → call → pyres handle.
Variable fetch : string → pyres Z.

Lemma emoji_item_calls (Q : call → Prop) base ed :
  (key_truthy (e_id ed) = true → fetch (emoji_url ed) = Ret 200 →
   Q (CreateEmoji (e_name ed) (emoji_url ed))) →
  pres (calls_since Q base) (emoji_item api fetch ed).
Proof.
  intros HQ. assert (Hr := calls_reads Q base). unfold emoji_item.
  destruct (key_truthy (e_id ed)) eqn:Ht; simpl.
  - apply pres_bind; [| auto with frame].
    apply pres_try; [| auto with frame].
    unfold emoji_create. apply pres_bind_res. intros status Hst.
    destruct (status =? 200) eqn:H200; [| auto with frame].
    apply Z.eqb_eq in H200. subst status.
    apply pres_bind; [apply pres_issue_calls; exact (HQ eq_refl Hst) | auto with frame].
  - apply pres_bind; auto with frame.
Qed.

Lemma guild_edit_calls_exact (Q : call → Prop) base t gd :
  Q (EditGuildName (g_name gd)) →
  (py_truthy (g_icon gd) = true → fetch (icon_url gd) = Ret 200 → Q (EditGuildIcon (icon_url gd))) →
  pres (calls_since Q base) (guild_edit api fetch t gd).
Proof.
  intros HN HI. assert (Hr := calls_reads Q base). unfold guild_edit.
  apply pres_bind; [auto with frame | intros _].
  apply pres_try; [| auto with frame].
  apply pres_bind; [by apply pres_issue_calls | intros _].
  apply pres_bind; [auto with frame | intros _].
  destruct (py_truthy (g_icon gd)) eqn:Hi; [| auto with frame].
  apply pres_try; [| auto with frame].
  apply pres_bind_res. intros status Hst.
  destruct (status =? 200) eqn:H200; [| auto with frame].
  apply Z.eqb_eq in H200. subst status.
  apply pres_bind; [apply pres_issue_calls; exact (HI eq_refl Hst) | auto with frame].
Qed.

Lemma map_calls_reads (Q : call → Prop) base rm0 :
  reads_maps_trace (λ s, role_map s = rm0 ∧ calls_since Q base s).
Proof.
  intros s s' Ht Hrm Hc Hch [H1 H2]. split; [congruence |].
  exact (calls_reads Q base s s' Ht Hrm Hc Hch H2).
Qed.

Lemma reorder_roles_calls_pres (Q : call → Prop) base rm0 rds :
  (∀ rd h pos, rd ∈ rds → rm0 !! r_id rd = Some h → hname h ≠ "@everyone" →
     safe_int (r_position rd) 0 = Ret pos → Q (EditRolePosition h pos)) →
  pres (λ s, role_map s = rm0 ∧ calls_since Q base s) (reorder_roles api rds).
Proof.
  intros HQ. assert (Hr := map_calls_reads Q base rm0). unfold reorder_roles.
  apply pres_bind; [auto with frame | intros _].
  apply pres_for_each. intros rd Hin. unfold reorder_item.
  apply (pres_gets_bind _ _ rm0); [by intros s [? _] |].
  destruct (rm0 !! r_id rd) as [h |] eqn:Hh; [| auto with frame].
  destruct (String.eqb (hname h) "@everyone") eqn:He; [auto with frame |].
  apply String.eqb_neq in He.
  apply pres_try; [| auto with frame].
  apply pres_bind_res. intros pos Hpos.
  apply pres_bind; [| auto with frame].
  apply pres_issue. intros s [Hm (new & Hn & Hf)]. split; [exact Hm |].
  exists ((r_id rd, EditRolePosition h pos, api (trace s) (EditRolePosition h pos)) :: new).
  simpl. rewrite Hn. split; [reflexivity |]. constructor; [| exact Hf].
  exact (HQ rd h pos Hin Hh He Hpos).
Qed.

End Issued.

(** X11: [emojis_create] issues only [create_custom_emoji] calls, each
    for an emoji of the list with a truthy id, named as the source emoji,
    with the CDN url of that id ([.gif] when animated, else [.png]) whose
    download answered 200. *)
Theorem emojis_create_calls_exact api fetch eds s :
  calls_since (λ c, ∃ ed, ed ∈ eds ∧ key_truthy (e_id ed) = true ∧
                 fetch (emoji_url ed) = Ret 200 ∧ c = CreateEmoji (e_name ed) (emoji_url ed))
    (trace s) (snd (emojis_create api fetch eds s)).
Proof.
  apply (λ H : pres _ (emojis_create api fetch eds), H s (calls_since_start _ s)).
  assert (Hr := calls_reads (λ c, ∃ ed, ed ∈ eds ∧ key_truthy (e_id ed) = true ∧
                 fetch (emoji_url ed) = Ret 200 ∧ c = CreateEmoji (e_name ed) (emoji_url ed))
                 (trace s)).
  unfold emojis_create.
  apply pres_bind; [auto with frame | intros _].
  apply pres_bind; [auto with frame | intros _].
  apply pres_if; [auto with frame |].
  apply pres_for_each. intros ed Hin. apply emoji_item_calls.
  intros Ht H200. exists ed. auto.
Qed.

(** X12: [guild_edit] issues at most two calls: the rename to the
    source's name, and the icon change, with the CDN url built from the
    source guild's id and icon hash, only when the icon hash is truthy
    and its download answered 200. *)
Theorem guild_edit_calls_only api fetch t gd s :
  ∃ new, trace (snd (guild_edit api fetch t gd s)) = new ++ trace s ∧
    (map ev_call (rev new) = [EditGuildName (g_name gd)] ∨
     (py_truthy (g_icon gd) = true ∧ fetch (icon_url gd) = Ret 200 ∧
      map ev_call (rev new) = [EditGuildName (g_name gd); EditGuildIcon (icon_url gd)])).
Proof.
  unfold guild_edit, set_op, issue, try_except, log_add, of_res, modify, mret, M_ret,
    mbind, M_bind. simpl.
  destruct (api (trace s) (EditGuildName (g_name gd))) as [h | e]; simpl.
  - destruct (py_truthy (g_icon gd)) eqn:Hi; simpl.
    + destruct (fetch (icon_url gd)) as [z | e] eqn:Hf; simpl.
      * destruct (z =? 200) eqn:Hz; simpl.
        -- apply Z.eqb_eq in Hz. subst z.
           destruct (api _ (EditGuildIcon (icon_url gd))); simpl;
           refine (ex_intro _ [_; _] (conj eq_refl _)); right; split_and!; reflexivity.
        -- refine (ex_intro _ [_] (conj eq_refl _)). left. reflexivity.
      * refine (ex_intro _ [_] (conj eq_refl _)). left. reflexivity.
    + refine (ex_intro _ [_] (conj eq_refl _)). left. reflexivity.
  - destruct (is_forbidden e); simpl; refine (ex_intro _ [_] (conj eq_refl _)); left; reflexivity.
Qed.

(** X13: [reorder_roles] leaves [role_map] unchanged and issues only
    position edits, each on a role that [role_map] maps the id of a
    listed source role to, other than [@everyone], with that source
    role's position as [safe_int] reads it. *)
Theorem reorder_roles_calls api rds s :
  role_map (snd (reorder_roles api rds s)) = role_map s ∧
  calls_since (λ c, ∃ rd h pos, rd ∈ rds ∧ role_map s !! r_id rd = Some h ∧
                 hname h ≠ "@everyone" ∧ safe_int (r_position rd) 0 = Ret pos ∧
                 c = EditRolePosition h pos)
    (trace s) (snd (reorder_roles api rds s)).
Proof.
  apply (reorder_roles_calls_pres api _ (trace s) (role_map s) rds);
    [| split; [reflexivity | apply calls_since_start]].
  intros rd h pos Hin Hh He Hpos. exists rd, h, pos. auto.
Qed.

(** ** The calls of [roles_create] *)

(** X14: [roles_create] never creates a role named [@everyone]: it
    creates roles only for listed source roles of another name, with
    that name and the permissions and color [safe_int] reads; the source
    [@everyone] role only edits the permissions of the target's default
    role; the remaining calls are position edits of roles other than
    [@everyone]. *)
Theorem roles_create_calls_exact api t rds s :
  calls_since (λ c,
      (∃ rd perms color, rd ∈ rds ∧ r_name rd ≠ "@everyone" ∧
         safe_int (r_permissions rd) 0 = Ret perms ∧ safe_int (r_color rd) 0 = Ret color ∧
         c = CreateRole (r_name rd) perms color (boolish (r_hoist rd)) (boolish (r_mentionable rd))) ∨
      (∃ rd perms, rd ∈ rds ∧ r_name rd = "@everyone" ∧
         safe_int (r_permissions rd) 0 = Ret perms ∧ c = EditRolePerms (t_default_role t) perms) ∨
      (∃ h pos, hname h ≠ "@everyone" ∧ c = EditRolePosition h pos))
    (trace s) (snd (roles_create api t rds s)).
Proof.
  apply (λ H : pres _ (roles_create api t rds), H s (calls_since_start _ s)).
  match goal with |- pres (calls_since ?Q ?b) _ => assert (Hr := calls_reads Q b) end.
  unfold roles_create.
  apply pres_bind; [auto with frame | intros _].
  apply pres_bind; [auto with frame | intros _].
  apply pres_bind_res. intros sorted Hs.
  apply pres_bind.
  - apply pres_for_each. intros rd Hin.
    assert (Hrd := sort_by_position_elem _ _ _ Hs rd Hin). unfold role_item.
    apply pres_bind; [| auto with frame].
    destruct (String.eqb (r_name rd) "@everyone") eqn:Hn;
      (apply pres_try; [| auto with frame]).
    + apply String.eqb_eq in Hn.
      unfold everyone_edit. apply pres_bind_res. intros perms Hp.
      apply pres_bind; [apply pres_issue_calls | intros _].
      { right; left. exists rd, perms. auto. }
      apply pres_bind; [apply pres_modify_calls; reflexivity | auto with frame].
    + apply String.eqb_neq in Hn.
      unfold role_create. apply pres_bind_res. intros perms Hp.
      apply pres_bind_res. intros color Hc.
      apply pres_bind; [apply pres_issue_calls | intros h].
      { left. exists rd, perms, color. auto. }
      apply pres_bind; [apply pres_modify_calls; reflexivity | auto with frame].
  - intros _. unfold reorder_roles. apply pres_bind; [auto with frame | intros _].
    apply pres_for_each. intros rd _. unfold reorder_item.
    apply pres_bind; [auto with frame | intros rm].
    destruct (rm !! r_id rd) as [h |]; [| auto with frame].
    destruct (String.eqb (hname h) "@everyone") eqn:He; [auto with frame |].
    apply String.eqb_neq in He.
    apply pres_try; [| auto with frame].
    apply pres_bind_res. intros pos _.
    apply pres_bind; [apply pres_issue_calls | auto with frame].
    right; right. exists h, pos. auto.
Qed.

(** ** Stability of [sorted] *)

Lemma filter_none {B} (g : B → bool) l : (∀ x, In x l → g x = false) → List.filter g l = [].
Proof.
  induction l as [| x r IH]; simpl; intros H; [reflexivity |].
  rewrite (H x (or_introl eq_refl)). apply IH. intros y Hy. exact (H y (or_intror Hy)).
Qed.

Lemma filter_insert_keyed {A} k (p : Z * A) acc :
  StronglySorted (λ a b, a.1 <= b.1) acc →
  List.filter (λ q, q.1 =? k) (insert_keyed p acc) =
  List.filter (λ q, q.1 =? k) acc ++ List.filter (λ q, q.1 =? k) [p].
Proof.
  induction acc as [| q r IH]; simpl; intros Hs; [reflexivity |].
  apply StronglySorted_inv in Hs as [Hr Hq].
  destruct (p.1 <? q.1) eqn:Hpq; simpl.
  - apply Z.ltb_lt in Hpq.
    destruct (p.1 =? k) eqn:Hpk; simpl.
    + apply Z.eqb_eq in Hpk.
      assert (Hnone : List.filter (λ q0, q0.1 =? k) (q :: r) = []).
      { apply filter_none. intros x Hx. apply Z.eqb_neq.
        destruct Hx as [<- | Hx]; [lia |].
        assert (Hle := proj1 (Forall_forall _ _) Hq x (proj2 (list_elem_of_In _ _) Hx)).
        simpl in Hle. lia. }
      simpl in Hnone. rewrite Hnone. reflexivity.
    + rewrite app_nil_r. reflexivity.
  - rewrite (IH Hr). destruct (q.1 =? k); reflexivity.
Qed.

Lemma filter_fold_insert {A} k (kl acc : list (Z * A)) :
  StronglySorted (λ a b, a.1 <= b.1) acc →
  List.filter (λ q, q.1 =? k) (fold_left (λ acc p, insert_keyed p acc) kl acc) =
  List.filter (λ q, q.1 =? k) acc ++ List.filter (λ q, q.1 =? k) kl.
Proof.
  revert acc. induction kl as [| p r IH]; intros acc Hs; simpl.
  - by rewrite app_nil_r.
  - rewrite IH by (by apply insert_keyed_sorted).
    rewrite filter_insert_keyed by exact Hs.
    rewrite <- app_assoc. simpl. by destruct (p.1 =? k).
Qed.

(** X15: the sort by [safe_int(position, 0)] is stable: the entries of
    any one key keep, in the output, the order they had in the input. *)
Theorem sort_by_position_stable {A} (f : A → pyval) l l' :
  sort_by_position f l = Ret l' →
  ∃ kl ks, keyed f l = Ret kl ∧ keyed f l' = Ret ks ∧
    ∀ k, List.filter (λ p, p.1 =? k) ks = List.filter (λ p, p.1 =? k) kl.
Proof.
  unfold sort_by_position. destruct (keyed f l) as [kl | e] eqn:Hk; [| discriminate].
  intros Hs. injection Hs as <-.
  exists kl, (fold_left (λ acc p, insert_keyed p acc) kl []). split_and!.
  - reflexivity.
  - apply keyed_of_keys.
    assert (Hp : kl ++ [] ≡ₚ fold_left (λ acc p, insert_keyed p acc) kl [])
      by (symmetry; apply fold_insert_perm).
    rewrite app_nil_r in Hp. rewrite <- Hp. exact (keyed_keys f l kl Hk).
  - intros k. rewrite filter_fold_insert by constructor. reflexivity.
Qed.

Lemma sort_by_position_stable_witness :
  sort_by_position r_position
    [mkrole (KStr "1") "a" PNone PNone PNone PNone (PInt 2);
     mkrole (KStr "2") "b" PNone PNone PNone PNone (PInt 1);
     mkrole (KStr "3") "c" PNone PNone PNone PNone (PInt 2)]
  = Ret [mkrole (KStr "2") "b" PNone PNone PNone PNone (PInt 1);
         mkrole (KStr "1") "a" PNone PNone PNone PNone (PInt 2);
         mkrole (KStr "3") "c" PNone PNone PNone PNone (PInt 2)] ∧
  ∃ kl ks,
    keyed r_position
      [mkrole (KStr "1") "a" PNone PNone PNone PNone (PInt 2);
       mkrole (KStr "2") "b" PNone PNone PNone PNone (PInt 1);
       mkrole (KStr "3") "c" PNone PNone PNone PNone (PInt 2)] = Ret kl ∧
    keyed r_position
      [mkrole (KStr "2") "b" PNone PNone PNone PNone (PInt 1);
       mkrole (KStr "1") "a" PNone PNone PNone PNone (PInt 2);
       mkrole (KStr "3") "c" PNone PNone PNone PNone (PInt 2)] = Ret ks ∧
    ∀ k, List.filter (λ p, p.1 =? k) ks = List.filter (λ p, p.1 =? k) kl.
Proof.
  assert (Hs : sort_by_position r_position
    [mkrole (KStr "1") "a" PNone PNone PNone PNone (PInt 2);
     mkrole (KStr "2") "b" PNone PNone PNone PNone (PInt 1);
     mkrole (KStr "3") "c" PNone PNone PNone PNone (PInt 2)]
  = Ret [mkrole (KStr "2") "b" PNone PNone PNone PNone (PInt 1);
         mkrole (KStr "1") "a" PNone PNone PNone PNone (PInt 2);
         mkrole (KStr "3") "c" PNone PNone PNone PNone (PInt 2)]) by (vm_compute; reflexivity).
  split; [exact Hs | exact (sort_by_position_stable _ _ _ Hs)].
Defined.
